(** * proto-jo: the incremental lexer

    A shallow embedding of [src/pass/lexer/index.js] (the branch state
    machine, the driver [loop], [withState] and the chunk scheduler
    [asyncLoop]) and of the [State] class of [src/pass/lexer/state.js],
    followed by the properties of the tokenizer.

    Conventions of the embedding.
    - A character is the code of one element delivered by the cursor (a
      UTF-16 code unit, or a code point when the cursor iterates a string
      by code points); a JavaScript string is the list of its characters.
    - A generator function ([function*] returning a [State], yielding
      tokens, possibly throwing) is a value of [Process State]: the tokens
      it yields, in order, and how it ends.  [yield*] is [bind].
    - A branch, stored in the state as a function value, is a tag of
      [Branch]; [withBranch] dispatches on the tag.
    - The call stack is unbounded: the recursion of [loop] and [asyncLoop]
      never overflows. *)

From Stdlib Require Import List NArith Bool Lia String Ascii Arith.
From Equations Require Import Equations.
Import ListNotations.

Set Implicit Arguments.

Local Open Scope N_scope.

(** ** Characters and strings *)

Definition char := N.

(** A string literal of the development, as the list of its characters
    (each byte of the literal is the code of an ASCII character). *)
Fixpoint chars (s : string) : list char :=
  match s with
  | EmptyString => []
  | String a rest => N_of_ascii a :: chars rest
  end.

Definition quote : char := 34.
Definition lparen : char := 40.
Definition rparen : char := 41.
Definition newline : char := 10.

(** [String.prototype.length]: the number of UTF-16 code units. *)
Definition code_units (c : char) : N := if c <? 65536 then 1 else 2.

Fixpoint js_length (s : list char) : N :=
  match s with
  | [] => 0
  | c :: rest => code_units c + js_length rest
  end.

(** ** Character classes (index.js, lines 146-156) *)

Definition between (lo hi c : N) : bool := (lo <=? c) && (c <=? hi).

(** [/^[a-zA-Z]$/] *)
Definition isAlpha (character : char) : bool :=
  between 97 122 character || between 65 90 character.

(** [/^[a-zA-Z0-9-]$/] *)
Definition isIdChar (character : char) : bool :=
  between 97 122 character || between 65 90 character
  || between 48 57 character || (character =? 45).

(** [/(\s|\n|\t)/]: the class [\s] of ECMAScript is the white space and
    line terminator code points; it already holds [\n] and [\t]. *)
Definition isWhitespace (character : char) : bool :=
  between 9 13 character          (* \t \n \v \f \r *)
  || (character =? 32)            (* space *)
  || (character =? 160)           (* U+00A0 *)
  || (character =? 5760)          (* U+1680 *)
  || between 8192 8202 character  (* U+2000 .. U+200A *)
  || (character =? 8232)          (* U+2028 *)
  || (character =? 8233)          (* U+2029 *)
  || (character =? 8239)          (* U+202F *)
  || (character =? 8287)          (* U+205F *)
  || (character =? 12288)         (* U+3000 *)
  || (character =? 65279).        (* U+FEFF *)

(** ** Positions and locations *)

Record Position := { line : N; column : N }.

Record Location := { start : Position; finish : Position }.

Module Position.

(** Modelled from the spec: [Position.init] of [@/data/location], which
    is not among the sources: the 0-based origin. *)
Definition init : Position := {| line := 0; column := 0 |}.

(** Modelled from the spec: [Position.shiftWith] of [@/data/location],
    which is not among the sources: "increments line and resets column
    on a newline character, else increments column". *)
Definition shiftWith (p : Position) (character : char) : Position :=
  if character =? newline
  then {| line := line p + 1; column := 0 |}
  else {| line := line p; column := column p + 1 |}.

(** The position reached from [p] by one [shiftWith] per character. *)
Definition shiftAll (p : Position) (s : list char) : Position :=
  fold_left shiftWith s p.

(** The order in which positions are reached while a text is read: by
    line, then by column.  Not part of the sources; spans are read back
    with it. *)
Definition ltb (p q : Position) : bool :=
  (line p <? line q) || ((line p =? line q) && (column p <? column q)).

Definition leb (p q : Position) : bool :=
  (line p <? line q) || ((line p =? line q) && (column p <=? column q)).

End Position.

Module Location.
(** Modelled from the spec: [Location.create] of [@/data/location],
    which is not among the sources: the span of two positions. *)
Definition create (s e : Position) : Location :=
  {| start := s; finish := e |}.
End Location.

(** ** The character cursor *)

(** Modelled from the spec: the [Stream] of [@/data/stream], which is not
    among the sources: "wraps a finite ordered sequence of characters plus
    a current index"; [shiftForward] returns a new cursor advanced by one
    and is a no-op at the end. *)
Record Cursor := { source : list char; index : nat }.

Module Cursor.

Definition current (k : Cursor) : option char :=
  nth_error (source k) (index k).

Definition shiftForward (k : Cursor) : Cursor :=
  match current k with
  | Some _ => {| source := source k; index := S (index k) |}
  | None => k
  end.

Definition done (k : Cursor) : bool :=
  match current k with Some _ => false | None => true end.

(** The characters not consumed yet. *)
Definition remaining (k : Cursor) : list char :=
  skipn (index k) (source k).

End Cursor.

(** Modelled from the spec: [withIterable] of [@/data/stream], which is
    not among the sources: a fresh cursor at the start of the text. *)
Definition withIterable (text : list char) : Cursor :=
  {| source := text; index := 0 |}.

(** ** Tokens (the classes of [@/data/lex-token], as plain data) *)

Inductive Token :=
| LParenLexicon (location : Location)
| RParenLexicon (location : Location)
| IdentifierLexicon (repr : list char) (location : Location)
| StringLexicon (content : list char) (location : Location)
| WhiteSpaceLexicon (nchars : N) (location : Location).

(** ** Errors and generator processes *)

Inductive Error :=
| EmptyInputError
| UnexpectedChar (character : char).

Inductive Outcome (A : Type) :=
| Return (a : A)
| Throw (e : Error).
Arguments Throw {A} e.

(** What a generator does when it is run to its end: the tokens yielded,
    in order, and the value returned or the error thrown. *)
Definition Process (A : Type) : Type := (list Token * Outcome A)%type.

Definition ret {A} (a : A) : Process A := ([], Return a).
Definition yield (t : Token) : Process unit := ([t], Return tt).
Definition throw {A} (e : Error) : Process A := ([], Throw e).

Definition bind {A B} (m : Process A) (k : A -> Process B) : Process B :=
  match m with
  | (ts, Return a) => let (ts', o) := k a in (ts ++ ts', o)
  | (ts, Throw e) => (ts, Throw e)
  end.

Declare Scope process_scope.
Delimit Scope process_scope with process.
Notation "x <- m ;; k" := (bind m (fun x => k))
  (at level 61, m at next level, right associativity) : process_scope.
Notation "m ;; k" := (bind m (fun _ => k))
  (at level 61, right associativity) : process_scope.
Local Open Scope process_scope.

(** ** The lexer state (state.js) *)

Inductive Branch := BranchInit | BranchId | BranchString | BranchWS.

Record State := {
  _stream : Cursor;
  _branch : Branch;
  _buffer : list char;
  _bufStart : Position;
  _bufEnd : Position
}.

Module State.

(** [constructor (branch, stream)], through [State.create]. *)
Definition create (stream : Cursor) (branch : Branch) : State :=
  {| _stream := stream; _branch := branch; _buffer := [];
     _bufStart := Position.init; _bufEnd := Position.init |}.

Definition enqueued (this : State) : list char := _buffer this.

Definition location (this : State) : Location :=
  Location.create (_bufStart this) (_bufEnd this).

Definition current (this : State) : option char :=
  Cursor.current (_stream this).

Definition dropBuffer (this : State) : State :=
  {| _stream := _stream this; _branch := _branch this;
     _buffer := []; _bufStart := _bufEnd this; _bufEnd := _bufEnd this |}.

Definition shiftForward (this : State) : State :=
  let stream := Cursor.shiftForward (_stream this) in
  match current this with
  | Some value =>
      {| _stream := stream; _branch := _branch this;
         _buffer := _buffer this ++ [value];
         _bufStart := _bufStart this;
         _bufEnd := Position.shiftWith (_bufEnd this) value |}
  | None => this
  end.

Definition setBranch (branch : Branch) (this : State) : State :=
  {| _stream := _stream this; _branch := branch;
     _buffer := _buffer this; _bufStart := _bufStart this;
     _bufEnd := _bufEnd this |}.

(** Modelled from the spec: [addInput], which the [State] class among
    the sources does not define: the new cursor is spliced into the
    state, "replacing only the cursor, preserving
    branch/buffer/positions". *)
Definition addInput (stream : Cursor) (this : State) : State :=
  {| _stream := stream; _branch := _branch this;
     _buffer := _buffer this; _bufStart := _bufStart this;
     _bufEnd := _bufEnd this |}.

End State.

(** ** The branch state machine (index.js, lines 77-142) *)

Definition branchInit (character : char) (state : State) : Process State :=
  if isWhitespace character then
    ret (State.setBranch BranchWS state)
  else if isAlpha character then
    ret (State.setBranch BranchId (State.shiftForward state))
  else if character =? quote then
    ret (State.setBranch BranchString
           (State.dropBuffer (State.shiftForward state)))
  else if character =? rparen then
    let shifted := State.shiftForward state in
    let location := State.location shifted in
    yield (RParenLexicon location) ;;
    ret (State.dropBuffer shifted)
  else if character =? lparen then
    let shifted := State.shiftForward state in
    let location := State.location shifted in
    yield (LParenLexicon location) ;;
    ret (State.dropBuffer shifted)
  else
    throw (UnexpectedChar character).

Definition branchId (character : char) (state : State) : Process State :=
  if isIdChar character then
    ret (State.shiftForward state)
  else
    let repr := State.enqueued state in
    let location := State.location state in
    yield (IdentifierLexicon repr location) ;;
    ret (State.setBranch BranchInit (State.dropBuffer state)).

Definition branchString (character : char) (state : State) : Process State :=
  if negb (character =? quote) then
    ret (State.shiftForward state)
  else
    let content := State.enqueued state in
    let shifted := State.shiftForward state in
    let location := State.location shifted in
    yield (StringLexicon content location) ;;
    ret (State.setBranch BranchInit (State.dropBuffer shifted)).

Definition branchWS (character : char) (state : State) : Process State :=
  if isWhitespace character then
    ret (State.shiftForward state)
  else
    let nchars := js_length (State.enqueued state) in
    let lchars := State.location state in
    yield (WhiteSpaceLexicon nchars lchars) ;;
    ret (State.setBranch BranchInit (State.dropBuffer state)).

(** [State.withBranch]: the call of the function stored in [_branch]. *)
Definition withBranch (character : char) (this : State) : Process State :=
  match _branch this with
  | BranchInit => branchInit character this
  | BranchId => branchId character this
  | BranchString => branchString character this
  | BranchWS => branchWS character this
  end.

(** ** The driver loop (index.js, lines 58-73) *)

(** [loop] calls itself on the state its branch returned, which holds the
    same cursor or the cursor one character further.  A branch that leaves
    the cursor in place hands the character to a branch that is closer to
    consuming it: [rank] counts the dispatches that may come before the
    current character is consumed. *)
Definition rank (st : State) : nat :=
  match State.current st with
  | None => 0
  | Some c =>
      match _branch st with
      | BranchInit => if isWhitespace c then 1 else 0
      | BranchId => if isIdChar c then 0 else 2
      | BranchString => 0
      | BranchWS => if isWhitespace c then 0 else 1
      end
  end%nat.

Definition measure (st : State) : nat :=
  (3 * List.length (Cursor.remaining (_stream st)) + rank st)%nat.

(** A value together with the proof that it is the value of the
    expression inspected, for the termination proof of [loop]. *)
Definition inspect {A} (a : A) : {b : A | a = b} := exist _ a eq_refl.

(** *** Termination of the loop *)

Lemma remaining_current k :
  Cursor.current k = hd_error (Cursor.remaining k).
Proof.
  unfold Cursor.current, Cursor.remaining.
  destruct k as [s i]; simpl. revert s.
  induction i as [|i IH]; intros [|a s]; simpl; auto.
Qed.

Lemma remaining_shiftForward k :
  Cursor.remaining (Cursor.shiftForward k) = tl (Cursor.remaining k).
Proof.
  unfold Cursor.shiftForward.
  destruct (Cursor.current k) as [c|] eqn:Hc.
  - unfold Cursor.remaining, Cursor.current in *. destruct k as [s i]; simpl in *.
    clear Hc. revert s. induction i as [|i IH]; intros [|a s]; simpl; auto.
  - rewrite remaining_current in Hc.
    destruct (Cursor.remaining k); [reflexivity | discriminate].
Qed.

Lemma rank_le st : (rank st <= 2)%nat.
Proof.
  unfold rank. destruct (State.current st); [|lia].
  destruct (_branch st);
    repeat match goal with
           | |- context [if ?b then _ else _] => destruct b
           end; lia.
Qed.

(** Every dispatch that returns brings the loop closer to its end. *)
Lemma withBranch_measure st c toks st' :
  State.current st = Some c ->
  withBranch c st = (toks, Return st') ->
  (measure st' < measure st)%nat.
Proof.
  intros Hc Hb.
  assert (Hsh : (measure (State.shiftForward st) + 1
                 <= 3 * List.length (Cursor.remaining (_stream st)))%nat).
  { unfold measure. pose proof (rank_le (State.shiftForward st)) as Hr.
    unfold State.shiftForward in *. rewrite Hc in *. simpl in *.
    rewrite remaining_shiftForward.
    unfold State.current in Hc. rewrite remaining_current in Hc.
    destruct (Cursor.remaining (_stream st)); [discriminate|]. simpl. lia. }
  assert (Hm : forall b s,
             (measure (State.setBranch b s)
              <= 3 * List.length (Cursor.remaining (_stream s)) + 2)%nat).
  { intros b s. unfold measure.
    pose proof (rank_le (State.setBranch b s)). simpl. lia. }
  assert (Hd : forall s, Cursor.remaining (_stream (State.dropBuffer s)) =
                         Cursor.remaining (_stream s)) by reflexivity.
  unfold withBranch in Hb.
  destruct (_branch st) eqn:Hbr.
  - unfold branchInit in Hb.
    destruct (isWhitespace c) eqn:Hw; [injection Hb as <- <-|].
    { unfold measure, rank, State.current in *; simpl. rewrite Hc, Hbr, Hw. lia. }
    destruct (isAlpha c); [injection Hb as <- <-|].
    { specialize (Hm BranchId (State.shiftForward st)). unfold measure in *. lia. }
    destruct (c =? quote); [injection Hb as <- <-|].
    { specialize (Hm BranchString (State.dropBuffer (State.shiftForward st))).
      rewrite Hd in Hm. unfold measure in *. lia. }
    destruct (c =? rparen); [injection Hb as <- <-|].
    { pose proof (rank_le (State.dropBuffer (State.shiftForward st))).
      unfold measure in *. rewrite Hd. lia. }
    destruct (c =? lparen); [injection Hb as <- <-|discriminate].
    { pose proof (rank_le (State.dropBuffer (State.shiftForward st))).
      unfold measure in *. rewrite Hd. lia. }
  - unfold branchId in Hb.
    destruct (isIdChar c) eqn:Hi; injection Hb as <- <-.
    + unfold measure in *. lia.
    + unfold measure, rank, State.current in *; simpl. rewrite Hc, Hbr, Hi.
      destruct (isWhitespace c); lia.
  - unfold branchString in Hb.
    destruct (negb (c =? quote)); injection Hb as <- <-.
    + unfold measure in *. lia.
    + specialize (Hm BranchInit (State.dropBuffer (State.shiftForward st))).
      rewrite Hd in Hm. unfold measure in *. lia.
  - unfold branchWS in Hb.
    destruct (isWhitespace c) eqn:Hw; injection Hb as <- <-.
    + unfold measure in *. lia.
    + unfold measure, rank, State.current in *; simpl. rewrite Hc, Hbr, Hw. lia.
Qed.

(** [loop]: while the state has a current character, the active branch is
    run on it, its tokens are relayed and the loop goes on with the state
    it returned ([update <- withBranch value state ;; loop update], see
    [loop_eq]); at the end of the cursor the state is returned as it
    is. *)
Equations? loop (state : State) : Process State by wf (measure state) lt :=
  loop state with inspect (State.current state) := {
    | exist _ (Some value) Hcur with inspect (withBranch value state) := {
        | exist _ (toks, Return update) Hstep =>
            let (toks', o) := loop update in (toks ++ toks', o)
        | exist _ (toks, Throw e) _ => (toks, Throw e) };
    | exist _ None _ => ret state }.
Proof.
  eapply withBranch_measure; eauto.
Qed.

(** [withState]: the state takes the new input and the loop runs on it. *)
Definition withState (state : State) (stream : Cursor) : Process State :=
  loop (State.addInput stream state).

Definition initialState : State :=
  State.create (withIterable (chars "")) BranchInit.

(** ** The chunk scheduler (index.js, lines 26-43) *)

(** What a pull of the asynchronous source resolves to. *)
Inductive JsValue :=
| Undefined
| Null
| Text (text : list char).

Record IterResult := { done : bool; value : JsValue }.

(** [value == null]: true of [null] and [undefined] only. *)
Definition nullish (v : JsValue) : bool :=
  match v with
  | Undefined | Null => true
  | Text _ => false
  end.

(** The source is the list of what its successive pulls resolve to; a
    source that has nothing more to give answers [done]. *)
Fixpoint asyncLoop (state : State) (iterator : list IterResult) : Process unit :=
  match iterator with
  | [] => ret tt
  | r :: iterator' =>
      match done r, value r with
      | false, (Undefined | Null) =>       (* ! done && value == null *)
          throw EmptyInputError
      | false, Text text =>                (* ! done *)
          let stream := withIterable text in
          update <- withState state stream ;;
          asyncLoop update iterator'
      | true, _ => ret tt
      end
  end.

Definition tokenStream (input : list IterResult) : Process unit :=
  asyncLoop initialState input.

(** The pull that delivers a chunk of text, the pull that ends the input,
    and the source that delivers the given chunks and then ends. *)
Definition chunk (text : list char) : IterResult :=
  {| done := false; value := Text text |}.

Definition finished : IterResult :=
  {| done := true; value := Undefined |}.

Definition chunked (texts : list (list char)) : list IterResult :=
  map chunk texts ++ [finished].

(** ** Executions of the driver loop, dispatch by dispatch *)

(** One call of the active branch that returned: the character it was
    given, the state before, the tokens it yielded and the state after. *)
Record Dispatch := {
  d_char : char;
  d_from : State;
  d_tokens : list Token;
  d_to : State
}.

(** [Steps st ds st']: from [st] the driver loop makes the dispatches
    [ds], each on the current character of the state it starts from, and
    reaches [st']. *)
Inductive Steps : State -> list Dispatch -> State -> Prop :=
| Steps_nil st : Steps st [] st
| Steps_cons st c toks st1 ds st2 :
    State.current st = Some c ->
    withBranch c st = (toks, Return st1) ->
    Steps st1 ds st2 ->
    Steps st ({| d_char := c; d_from := st; d_tokens := toks; d_to := st1 |} :: ds) st2.

Definition emitted (ds : list Dispatch) : list Token := flat_map d_tokens ds.

(** A dispatch consumes its character when it moves the cursor forward. *)
Definition consuming (d : Dispatch) : bool :=
  Nat.eqb (index (_stream (d_to d))) (S (index (_stream (d_from d)))).

(** The characters the dispatches consumed, in order. *)
Definition consumed (ds : list Dispatch) : list char :=
  map d_char (filter consuming ds).

(** The character classes that [branchInit] recognises. *)
Definition recognised (c : char) : bool :=
  isWhitespace c || isAlpha c || (c =? quote) || (c =? rparen) || (c =? lparen).

(** ** Reading tokens back against the text *)

(** The characters of [text], read from position [p] on, whose position
    lies in the span [loc] (from [start], inclusive, to [finish],
    exclusive). *)
Fixpoint span_from (p : Position) (text : list char) (loc : Location) : list char :=
  match text with
  | [] => []
  | c :: rest =>
      (if Position.leb (start loc) p && Position.ltb p (finish loc)
       then [c] else [])
      ++ span_from (Position.shiftWith p c) rest loc
  end.

Definition span (text : list char) (loc : Location) : list char :=
  span_from Position.init text loc.

(** The round trip as the specification words it: the span of each
    Whitespace, Identifier and String token, the literal parenthesis for
    the others. *)
Definition piece (text : list char) (t : Token) : list char :=
  match t with
  | LParenLexicon _ => [lparen]
  | RParenLexicon _ => [rparen]
  | IdentifierLexicon _ loc => span text loc
  | StringLexicon _ loc => span text loc
  | WhiteSpaceLexicon _ loc => span text loc
  end.

Definition reconstruct (text : list char) (toks : list Token) : list char :=
  flat_map (piece text) toks.

(** The round trip that leaves the location of String tokens out: a
    String token stands for its content between two double quotes. *)
Definition lexeme (text : list char) (t : Token) : list char :=
  match t with
  | StringLexicon content _ => quote :: content ++ [quote]
  | _ => piece text t
  end.

Definition reconstruct_lexemes (text : list char) (toks : list Token) : list char :=
  flat_map (lexeme text) toks.

(** The text of the token that the residual state has begun and not
    emitted: the opening quote of a string, then the buffer. *)
Definition pending (st : State) : list char :=
  match _branch st with
  | BranchString => quote :: _buffer st
  | _ => _buffer st
  end.

(** ** Reachable states and the buffer invariant *)

(** [bufferEnd] is [bufferStart] shifted once per buffered character. *)
Definition BufferInv (st : State) : Prop :=
  _bufEnd st = Position.shiftAll (_bufStart st) (_buffer st).

(** The states built from the initial state with the public operations,
    the branch functions and the driver. *)
Inductive Reachable : State -> Prop :=
| R_initial : Reachable initialState
| R_shiftForward st : Reachable st -> Reachable (State.shiftForward st)
| R_dropBuffer st : Reachable st -> Reachable (State.dropBuffer st)
| R_setBranch b st : Reachable st -> Reachable (State.setBranch b st)
| R_addInput k st : Reachable st -> Reachable (State.addInput k st)
| R_branchInit c st toks st' :
    Reachable st -> branchInit c st = (toks, Return st') -> Reachable st'
| R_branchId c st toks st' :
    Reachable st -> branchId c st = (toks, Return st') -> Reachable st'
| R_branchString c st toks st' :
    Reachable st -> branchString c st = (toks, Return st') -> Reachable st'
| R_branchWS c st toks st' :
    Reachable st -> branchWS c st = (toks, Return st') -> Reachable st'
| R_withState k st toks st' :
    Reachable st -> withState st k = (toks, Return st') -> Reachable st'.

(** Two states that differ in their cursor at most. *)
Definition same_core (a b : State) : Prop :=
  _branch a = _branch b /\ _buffer a = _buffer b /\
  _bufStart a = _bufStart b /\ _bufEnd a = _bufEnd b.

(** ** Comparing runs on different cursors *)

(** [follows r a b]: [b] is [a] with a cursor that has the characters [r]
    to read after those of the cursor of [a]. *)
Definition follows (r : list char) (a b : State) : Prop :=
  same_core a b /\
  Cursor.remaining (_stream b) = Cursor.remaining (_stream a) ++ r.

Definition Outcome_sim (o o' : Outcome State) : Prop :=
  match o, o' with
  | Return a, Return b => same_core a b
  | Throw e, Throw e' => e = e'
  | _, _ => False
  end.

(** The same tokens, and the same end but for the cursor of the state
    returned. *)
Definition Process_sim (p q : Process State) : Prop :=
  fst p = fst q /\ Outcome_sim (snd p) (snd q).

(** The end of a driver run as the scheduler sees it. *)
Definition forget (p : Process State) : Process unit := (p ;; ret tt).


(** ** Tokens and state against the text read so far *)

(** The opening quote that the String branch has consumed and dropped. *)
Definition opened (b : Branch) : list char :=
  match b with
  | BranchString => [quote]
  | _ => []
  end.

(** What relates, along a run on [text] from the initial state, the
    tokens yielded so far to the state: the tokens read back, with the
    opening quote of a string under way, give the text before
    [_bufStart]; the buffer and the characters left to read give the
    rest. *)
Definition ReadBack (text : list char) (toks : list Token) (st : State) : Prop :=
  exists before,
    text = before ++ _buffer st ++ Cursor.remaining (_stream st) /\
    _bufStart st = Position.shiftAll Position.init before /\
    _bufEnd st = Position.shiftAll Position.init (before ++ _buffer st) /\
    reconstruct_lexemes text toks ++ opened (_branch st) = before /\
    (_branch st = BranchInit -> _buffer st = []).

(** ** What the tokens of a run say of the text *)

Definition token_location (t : Token) : Location :=
  match t with
  | LParenLexicon loc => loc
  | RParenLexicon loc => loc
  | IdentifierLexicon _ loc => loc
  | StringLexicon _ loc => loc
  | WhiteSpaceLexicon _ loc => loc
  end.

Definition no_quote (s : list char) : bool :=
  forallb (fun c => negb (c =? quote)) s.

(** What the buffer holds in each branch, along the runs of the driver. *)
Definition Shape (st : State) : Prop :=
  match _branch st with
  | BranchInit => _buffer st = []
  | BranchId =>
      exists a r, _buffer st = a :: r /\
                  isAlpha a = true /\ forallb isIdChar r = true
  | BranchString => no_quote (_buffer st) = true
  | BranchWS =>
      forallb isWhitespace (_buffer st) = true /\
      (_buffer st = [] ->
       exists c, State.current st = Some c /\ isWhitespace c = true)
  end.

(** What a token says of the text it was read from: the text at the
    location of a paren token is the parenthesis; that of an Identifier
    token is its payload, a letter followed by identifier characters;
    that of a Whitespace token is a run of as many whitespace characters
    as its payload counts, and at least one; the content of a String token
    holds no double quote. *)
Definition Faithful (text : list char) (t : Token) : Prop :=
  match t with
  | LParenLexicon loc => span text loc = [lparen]
  | RParenLexicon loc => span text loc = [rparen]
  | IdentifierLexicon repr loc =>
      span text loc = repr /\
      exists a r, repr = a :: r /\
                  isAlpha a = true /\ forallb isIdChar r = true
  | StringLexicon content _ => no_quote content = true
  | WhiteSpaceLexicon nchars loc =>
      nchars = N.of_nat (List.length (span text loc)) /\
      (0 < nchars) /\
      forallb isWhitespace (span text loc) = true
  end.

(** Tokens in the order of the text from position [p] on: each starts at
    or after the end of the one before (or [p]), and ends after its
    start. *)
Fixpoint in_order (p : Position) (toks : list Token) : Prop :=
  match toks with
  | [] => True
  | t :: rest =>
      Position.leb p (start (token_location t)) = true /\
      Position.ltb (start (token_location t)) (finish (token_location t)) = true /\
      in_order (finish (token_location t)) rest
  end.

(** The characters that a branch adds to the token under way. *)
Definition accumulates (b : Branch) (c : char) : bool :=
  match b with
  | BranchInit => false
  | BranchId => isIdChar c
  | BranchString => negb (c =? quote)
  | BranchWS => isWhitespace c
  end.

(** The end of the location of a paren or Identifier token, from its
    start and its text. *)
Definition Extent (t : Token) : Prop :=
  match t with
  | LParenLexicon loc => finish loc = Position.shiftWith (start loc) lparen
  | RParenLexicon loc => finish loc = Position.shiftWith (start loc) rparen
  | IdentifierLexicon repr loc => finish loc = Position.shiftAll (start loc) repr
  | StringLexicon _ _ => True
  | WhiteSpaceLexicon _ _ => True
  end.

(** ** Notation for the scenarios *)

Definition at_ (l c : N) : Position := {| line := l; column := c |}.

Definition located (s e : Position) : Location := {| start := s; finish := e |}.

(** The residual state of the input [(ab]: an identifier under way. *)
Definition residual_paren_ab : State :=
  {| _stream := {| source := chars "(ab"; index := 3 |};
     _branch := BranchId; _buffer := chars "ab";
     _bufStart := at_ 0 1; _bufEnd := at_ 0 3 |}.

(** The text of a string literal of the language: the characters between
    two double quotes. *)
Definition quoted (s : string) : list char := quote :: chars s ++ [quote].


(** * Properties *)

(** ** The cursor *)

(** The test "finishes at last character" of [test/core/stream.test.js],
    on the cursor as it is modelled here. *)
Example finishes_at_last_character :
  let step1 := withIterable (chars "abc") in
  let step2 := Cursor.shiftForward step1 in
  let step3 := Cursor.shiftForward step2 in
  let step4 := Cursor.shiftForward step3 in
  Cursor.done step1 = false /\ Cursor.done step2 = false /\
  Cursor.done step3 = false /\ Cursor.done step4 = true.
Proof. repeat split. Qed.

Lemma current_remaining st c :
  State.current st = Some c ->
  exists r, Cursor.remaining (_stream st) = c :: r.
Proof.
  unfold State.current. rewrite remaining_current.
  destruct (Cursor.remaining (_stream st)) as [|a r]; [discriminate|].
  intros [= ->]. now exists r.
Qed.

Lemma current_None_remaining st :
  State.current st = None <-> Cursor.remaining (_stream st) = [].
Proof.
  unfold State.current. rewrite remaining_current.
  destruct (Cursor.remaining (_stream st)); simpl; split; intros; congruence.
Qed.

Lemma shiftForward_Some st c :
  State.current st = Some c ->
  State.shiftForward st =
  {| _stream := Cursor.shiftForward (_stream st); _branch := _branch st;
     _buffer := _buffer st ++ [c]; _bufStart := _bufStart st;
     _bufEnd := Position.shiftWith (_bufEnd st) c |}.
Proof. intros H. unfold State.shiftForward. now rewrite H. Qed.

Lemma cursor_shiftForward_index k c :
  Cursor.current k = Some c ->
  Cursor.shiftForward k = {| source := source k; index := S (index k) |}.
Proof. intros H. unfold Cursor.shiftForward. now rewrite H. Qed.

(** ** The driver loop: its equation and its induction principle *)

Lemma loop_functional_ext state
  (f g : forall y : State, (measure y < measure state)%nat -> Process State) :
  (forall y H, f y H = g y H) ->
  loop_functional state f = loop_functional state g.
Proof.
  intros E. unfold loop_functional, loop_clause_1.
  destruct (inspect (State.current state)) as [[c|] Hc]; [|reflexivity].
  unfold loop_clause_1_clause_1.
  destruct (inspect (withBranch c state)) as [[toks [update|e]] Hb];
    [|reflexivity].
  now rewrite E.
Qed.

Lemma loop_eq state :
  loop state =
  match State.current state with
  | Some value => update <- withBranch value state ;; loop update
  | None => ret state
  end.
Proof.
  unfold loop at 1. rewrite Subterm.FixWf_unfold.
  - change (loop_functional state (fun y _ => loop y) =
            match State.current state with
            | Some value => update <- withBranch value state ;; loop update
            | None => ret state
            end).
    unfold loop_functional, loop_clause_1.
    destruct (inspect (State.current state)) as [[c|] Hc].
    + transitivity (update <- withBranch c state ;; loop update);
        [|rewrite Hc; reflexivity].
      unfold loop_clause_1_clause_1, bind.
      destruct (inspect (withBranch c state)) as [[toks [update|e]] Hb];
        rewrite Hb; reflexivity.
    + rewrite Hc. reflexivity.
  - intros x f g E. now apply loop_functional_ext.
Qed.

Lemma loop_done st : State.current st = None -> loop st = ret st.
Proof. intros H. rewrite loop_eq, H. reflexivity. Qed.

Lemma loop_throw st c toks e :
  State.current st = Some c -> withBranch c st = (toks, Throw e) ->
  loop st = (toks, Throw e).
Proof. intros H Hb. rewrite loop_eq, H. unfold bind. now rewrite Hb. Qed.

Lemma loop_return st c toks st1 :
  State.current st = Some c -> withBranch c st = (toks, Return st1) ->
  loop st = (toks ++ fst (loop st1), snd (loop st1)).
Proof.
  intros H Hb. rewrite loop_eq, H. unfold bind. rewrite Hb.
  now destruct (loop st1).
Qed.

Section LoopInduction.

Variable P : State -> Process State -> Prop.
Hypothesis P_done : forall st, State.current st = None -> P st (ret st).
Hypothesis P_throw : forall st c toks e,
  State.current st = Some c -> withBranch c st = (toks, Throw e) ->
  P st (toks, Throw e).
Hypothesis P_return : forall st c toks st1,
  State.current st = Some c -> withBranch c st = (toks, Return st1) ->
  P st1 (loop st1) ->
  P st (toks ++ fst (loop st1), snd (loop st1)).

Lemma loop_induction : forall st, P st (loop st).
Proof.
  intros st. remember (measure st) as n eqn:Hn. revert st Hn.
  induction n as [n IH] using lt_wf_ind. intros st ->.
  destruct (State.current st) as [c|] eqn:Hc.
  - destruct (withBranch c st) as [toks [st1|e]] eqn:Hb.
    + rewrite (loop_return _ Hc Hb). eapply P_return; eauto.
      eapply IH; [|reflexivity]. eapply withBranch_measure; eauto.
    + rewrite (loop_throw _ Hc Hb). eauto.
  - rewrite (loop_done _ Hc). auto.
Qed.

End LoopInduction.

(** The loop returns exactly when its dispatches exhaust the cursor, with
    the tokens they yielded. *)
Lemma Steps_loop st ds st' :
  Steps st ds st' -> loop st = (emitted ds ++ fst (loop st'), snd (loop st')).
Proof.
  induction 1 as [st|st c toks st1 ds st2 Hc Hb _ IH].
  - now destruct (loop st).
  - rewrite (loop_return _ Hc Hb), IH. simpl. now rewrite app_assoc.
Qed.

Lemma loop_Return_Steps st toks st' :
  loop st = (toks, Return st') <->
  exists ds, Steps st ds st' /\ State.current st' = None /\ toks = emitted ds.
Proof.
  split.
  - revert toks st'.
    apply (loop_induction (fun st r => forall toks st', r = (toks, Return st') ->
      exists ds, Steps st ds st' /\ State.current st' = None /\ toks = emitted ds)).
    + intros s Hc toks st' [= <- <-]. exists []. repeat split; auto. constructor.
    + intros; discriminate.
    + intros s c t s1 Hc Hb IH toks st' E.
      destruct (loop s1) as [t1 o1]; simpl in E. injection E as <- ->.
      destruct (IH _ _ eq_refl) as (ds & Hs & Hn & ->).
      eexists. split; [econstructor; eauto|]. split; auto.
  - intros (ds & Hs & Hn & ->). rewrite (Steps_loop Hs), (loop_done _ Hn).
    simpl. now rewrite app_nil_r.
Qed.

Lemma loop_Throw_Steps st toks e :
  loop st = (toks, Throw e) <->
  exists ds st' c toks',
    Steps st ds st' /\ State.current st' = Some c /\
    withBranch c st' = (toks', Throw e) /\ toks = emitted ds ++ toks'.
Proof.
  split.
  - revert toks e.
    apply (loop_induction (fun st r => forall toks e, r = (toks, Throw e) ->
      exists ds st' c toks',
        Steps st ds st' /\ State.current st' = Some c /\
        withBranch c st' = (toks', Throw e) /\ toks = emitted ds ++ toks')).
    + intros; discriminate.
    + intros s c t e0 Hc Hb toks e [= <- <-].
      exists [], s, c, t. repeat split; auto. constructor.
    + intros s c t s1 Hc Hb IH toks e E.
      destruct (loop s1) as [t1 o1]; simpl in E. injection E as <- ->.
      destruct (IH _ _ eq_refl) as (ds & st' & c' & t' & Hs & Hc' & Hb' & ->).
      eexists _, st', c', t'. split; [econstructor; eauto|].
      repeat split; auto. unfold emitted; simpl. now rewrite app_assoc.
  - intros (ds & st' & c & toks' & Hs & Hc & Hb & ->).
    rewrite (Steps_loop Hs), (loop_throw _ Hc Hb). reflexivity.
Qed.

(** The branches throw nothing but [UnexpectedChar], and only [branchInit]
    throws. *)
Ltac break_if :=
  match goal with
  | H : context [if ?b then _ else _] |- _ => destruct b eqn:?
  | |- context [if ?b then _ else _] => destruct b eqn:?
  end.

Ltac unfold_branches :=
  unfold withBranch, branchInit, branchId, branchString, branchWS in *.

Lemma withBranch_Throw c st toks e :
  withBranch c st = (toks, Throw e) <->
  _branch st = BranchInit /\ recognised c = false /\
  toks = [] /\ e = UnexpectedChar c.
Proof.
  unfold recognised. split.
  - intros H. unfold_branches.
    destruct (_branch st); repeat break_if; try discriminate.
    injection H as <- <-. simpl. auto.
  - intros (Hb & Hr & -> & ->). unfold_branches. rewrite Hb.
    apply orb_false_elim in Hr; destruct Hr as [Hr Hl].
    apply orb_false_elim in Hr; destruct Hr as [Hr Hp].
    apply orb_false_elim in Hr; destruct Hr as [Hr Hq].
    apply orb_false_elim in Hr; destruct Hr as [Hw Ha].
    now rewrite Hw, Ha, Hq, Hp, Hl.
Qed.

Lemma loop_Throw_UnexpectedChar st toks e :
  loop st = (toks, Throw e) -> exists c, e = UnexpectedChar c.
Proof.
  intros H. apply loop_Throw_Steps in H.
  destruct H as (ds & st' & c & toks' & _ & _ & Hb & _).
  apply withBranch_Throw in Hb. exists c. tauto.
Qed.

(** ** The buffer invariant *)

Lemma shiftAll_snoc p s c :
  Position.shiftAll p (s ++ [c]) = Position.shiftWith (Position.shiftAll p s) c.
Proof. unfold Position.shiftAll. now rewrite fold_left_app. Qed.

Lemma shiftAll_app p s t :
  Position.shiftAll p (s ++ t) = Position.shiftAll (Position.shiftAll p s) t.
Proof. unfold Position.shiftAll. now rewrite fold_left_app. Qed.

Lemma BufferInv_shiftForward st : BufferInv st -> BufferInv (State.shiftForward st).
Proof.
  unfold BufferInv, State.shiftForward. intros H.
  destruct (State.current st); simpl; auto.
  now rewrite shiftAll_snoc, H.
Qed.

Lemma BufferInv_dropBuffer st : BufferInv (State.dropBuffer st).
Proof. reflexivity. Qed.

Lemma BufferInv_setBranch b st : BufferInv st -> BufferInv (State.setBranch b st).
Proof. auto. Qed.

Lemma BufferInv_addInput k st : BufferInv st -> BufferInv (State.addInput k st).
Proof. auto. Qed.

Lemma BufferInv_branch c st toks st' :
  BufferInv st ->
  branchInit c st = (toks, Return st') \/
  branchId c st = (toks, Return st') \/
  branchString c st = (toks, Return st') \/
  branchWS c st = (toks, Return st') -> BufferInv st'.
Proof.
  intros Hi H. unfold_branches.
  destruct H as [H|[H|[H|H]]]; repeat break_if; try discriminate;
    injection H as <- <-;
    auto using BufferInv_shiftForward, BufferInv_dropBuffer, BufferInv_setBranch.
Qed.

Lemma BufferInv_withBranch c st toks st' :
  BufferInv st -> withBranch c st = (toks, Return st') -> BufferInv st'.
Proof.
  intros Hi H. apply (@BufferInv_branch c st toks st' Hi).
  unfold withBranch in H. destruct (_branch st); auto.
Qed.

(** What every returning dispatch preserves, the loop preserves. *)
Lemma Steps_invariant (I : State -> Prop) :
  (forall c st toks st', I st -> withBranch c st = (toks, Return st') -> I st') ->
  forall st ds st', Steps st ds st' -> I st -> I st'.
Proof. intros HI st ds st' Hs. induction Hs; eauto. Qed.

Lemma loop_invariant (I : State -> Prop) :
  (forall c st toks st', I st -> withBranch c st = (toks, Return st') -> I st') ->
  forall st toks st', I st -> loop st = (toks, Return st') -> I st'.
Proof.
  intros HI st toks st' Hi H. apply loop_Return_Steps in H.
  destruct H as (ds & Hs & _). eapply Steps_invariant; eauto.
Qed.

Lemma BufferInv_withState k st toks st' :
  BufferInv st -> withState st k = (toks, Return st') -> BufferInv st'.
Proof.
  intros Hi H. unfold withState in H.
  eapply loop_invariant with (I := BufferInv); [ | | exact H].
  - intros; eapply BufferInv_withBranch; eauto.
  - now apply BufferInv_addInput.
Qed.

(** C6. In every state reachable from the initial state by the public
    operations ([shiftForward], [dropBuffer], [setBranch], [addInput]),
    the branch functions and the driver, [_bufEnd] is [_bufStart] shifted
    by [Position.shiftWith] once per character of [_buffer], in order; the
    initial state has the invariant and every operation preserves it. *)
Theorem buffer_invariant :
  BufferInv initialState /\
  (forall st, BufferInv st ->
     BufferInv (State.shiftForward st) /\
     BufferInv (State.dropBuffer st) /\
     (forall b, BufferInv (State.setBranch b st)) /\
     (forall k, BufferInv (State.addInput k st)) /\
     (forall c toks st',
        branchInit c st = (toks, Return st') \/
        branchId c st = (toks, Return st') \/
        branchString c st = (toks, Return st') \/
        branchWS c st = (toks, Return st') -> BufferInv st') /\
     (forall k toks st', withState st k = (toks, Return st') -> BufferInv st')) /\
  (forall st, Reachable st -> BufferInv st).
Proof.
  split; [reflexivity|]. split.
  - intros st Hi. repeat split;
      eauto using BufferInv_shiftForward, BufferInv_dropBuffer,
        BufferInv_setBranch, BufferInv_addInput, BufferInv_withState.
    intros c toks st'. now apply BufferInv_branch.
  - induction 1;
      eauto using BufferInv_shiftForward, BufferInv_dropBuffer,
        BufferInv_setBranch, BufferInv_addInput, BufferInv_withState.
    + reflexivity.
    + eapply BufferInv_branch; eauto.
    + eapply BufferInv_branch; eauto.
    + eapply BufferInv_branch; eauto.
    + eapply BufferInv_branch; eauto.
Qed.

Lemma buffer_invariant_witness :
  Reachable residual_paren_ab /\ BufferInv residual_paren_ab.
Proof.
  assert (R : Reachable residual_paren_ab).
  { apply (@R_withState (withIterable (chars "(ab")) initialState
             [LParenLexicon (located (at_ 0 0) (at_ 0 1))]).
    - constructor.
    - vm_compute. reflexivity. }
  split; [exact R|].
  exact (proj2 (proj2 buffer_invariant) residual_paren_ab R).
Defined.

(** ** Scenarios *)

(** C8. The single chunk [(abc)] gives exactly three tokens, in order:
    LeftParen at 0:0-0:1, Identifier "abc" at 0:1-0:4 and RightParen at
    0:4-0:5. *)
Theorem scenario_paren_abc :
  tokenStream (chunked [chars "(abc)"]) =
  ([ LParenLexicon (located (at_ 0 0) (at_ 0 1));
     IdentifierLexicon (chars "abc") (located (at_ 0 1) (at_ 0 4));
     RParenLexicon (located (at_ 0 4) (at_ 0 5)) ],
   Return tt).
Proof. vm_compute. reflexivity. Qed.

(** C2. On the single chunk [hi there] between double quotes (ten
    characters) the code emits exactly one token, a String token whose
    content is [hi there] and whose location ends at line 0 column 10,
    just past the closing quote; but the location starts at line 0
    column 1, just past the opening quote, and not at line 0 column 0 as
    the claim has it. *)
Theorem scenario_string :
  List.length (quoted "hi there") = 10%nat /\
  tokenStream (chunked [quoted "hi there"]) =
    ([ StringLexicon (chars "hi there") (located (at_ 0 1) (at_ 0 10)) ],
     Return tt) /\
  tokenStream (chunked [quoted "hi there"]) <>
    ([ StringLexicon (chars "hi there") (located (at_ 0 0) (at_ 0 10)) ],
     Return tt).
Proof.
  split; [reflexivity|]. split; [vm_compute; reflexivity|].
  vm_compute. intros H. discriminate H.
Qed.

(** ** Exhausted states *)

(** C9. On a state whose cursor is exhausted, [shiftForward] returns the
    state itself: cursor, branch, buffer and both positions are unchanged;
    so it is idempotent there, as the cursor's own [shiftForward] is past
    its end. *)
Theorem shiftForward_exhausted (st : State) :
  State.current st = None ->
  State.shiftForward st = st /\
  State.shiftForward (State.shiftForward st) = State.shiftForward st /\
  Cursor.shiftForward (_stream st) = _stream st.
Proof.
  intros H.
  assert (E : State.shiftForward st = st)
    by (unfold State.shiftForward; now rewrite H).
  rewrite !E. repeat split.
  unfold Cursor.shiftForward. unfold State.current in H. now rewrite H.
Qed.

Lemma shiftForward_exhausted_witness :
  State.current residual_paren_ab = None /\
  State.shiftForward residual_paren_ab = residual_paren_ab /\
  State.shiftForward (State.shiftForward residual_paren_ab) =
    State.shiftForward residual_paren_ab /\
  Cursor.shiftForward (_stream residual_paren_ab) = _stream residual_paren_ab.
Proof.
  split; [reflexivity|].
  apply (@shiftForward_exhausted residual_paren_ab). reflexivity.
Defined.

(** ** The chunk scheduler *)

Lemma addInput_addInput k k' st :
  State.addInput k (State.addInput k' st) = State.addInput k st.
Proof. reflexivity. Qed.

Lemma same_core_refl st : same_core st st.
Proof. repeat split. Qed.

Lemma same_core_addInput k k' a b :
  same_core a b -> State.addInput k a = State.addInput k b /\
                   same_core (State.addInput k a) (State.addInput k' b).
Proof.
  intros (H1 & H2 & H3 & H4). unfold State.addInput, same_core; simpl.
  rewrite H1, H2, H3, H4. auto.
Qed.

(** The scheduler reads nothing of the cursor of the state it is given. *)
Lemma asyncLoop_same_core a b src :
  same_core a b -> asyncLoop a src = asyncLoop b src.
Proof.
  intros H. destruct src as [|r src]; [reflexivity|]. simpl.
  destruct (done r), (value r); try reflexivity.
  unfold withState.
  now rewrite (proj1 (same_core_addInput (withIterable text) (withIterable text) H)).
Qed.

(** C10. When a pull resolves to [done: false] with the empty string as
    value, no [EmptyInputError] is raised at that pull: the empty chunk
    yields no token, the driver returns the state with its branch, buffer
    and positions unchanged, and the scheduler goes on to the next pull
    with it. *)
Theorem empty_chunk_is_skipped (st : State) (rest : list IterResult) :
  withState st (withIterable (chars "")) =
    ([], Return (State.addInput (withIterable (chars "")) st)) /\
  same_core st (State.addInput (withIterable (chars "")) st) /\
  asyncLoop st (chunk (chars "") :: rest) =
    asyncLoop (State.addInput (withIterable (chars "")) st) rest /\
  asyncLoop st (chunk (chars "") :: rest) = asyncLoop st rest /\
  asyncLoop st [chunk (chars ""); finished] = ([], Return tt).
Proof.
  assert (E : withState st (withIterable []) =
              ([], Return (State.addInput (withIterable []) st)))
    by (unfold withState; now rewrite loop_done).
  assert (A : asyncLoop st (chunk [] :: rest) =
              asyncLoop (State.addInput (withIterable []) st) rest).
  { simpl. unfold bind. simpl in E. rewrite E.
    now destruct (asyncLoop (State.addInput (withIterable []) st) rest). }
  simpl chars. split; [exact E|]. split; [repeat split|].
  split; [exact A|]. split.
  - rewrite A. apply asyncLoop_same_core. repeat split.
  - simpl. unfold bind. simpl in E. now rewrite E.
Qed.

Lemma chunk_eta r text : done r = false -> value r = Text text -> r = chunk text.
Proof. destruct r; simpl; intros -> ->; reflexivity. Qed.

Lemma asyncLoop_chunk st text src :
  asyncLoop st (chunk text :: src) =
  (update <- withState st (withIterable text) ;; asyncLoop update src).
Proof. reflexivity. Qed.

(** C5, as the code has it. [EmptyInputError] is raised exactly when,
    after pulls that delivered text (empty or not) which tokenized without
    error, a pull resolves to [done: false] with a [null] or [undefined]
    value; the tokens yielded are those of the text delivered before, and
    none follows. *)
Theorem EmptyInputError_iff (st : State) (src : list IterResult) (toks : list Token) :
  asyncLoop st src = (toks, Throw EmptyInputError) <->
  exists texts r rest,
    src = map chunk texts ++ r :: rest /\
    done r = false /\ nullish (value r) = true /\
    asyncLoop st (map chunk texts) = (toks, Return tt).
Proof.
  split.
  - revert st toks. induction src as [|r src IH]; intros st toks H.
    + discriminate.
    + simpl in H. destruct (done r) eqn:Hd; [discriminate|].
      destruct (value r) as [| |text] eqn:Hv.
      * injection H as <-. exists [], r, src. rewrite Hv. now repeat split.
      * injection H as <-. exists [], r, src. rewrite Hv. now repeat split.
      * unfold bind in H.
        destruct (withState st (withIterable text)) as [t1 [u|e]] eqn:Hw.
        -- destruct (asyncLoop u src) as [t2 o] eqn:Ha.
           injection H as <- ->.
           destruct (IH _ _ Ha) as (texts & r' & rest & -> & Hd' & Hn & Hp).
           exists (text :: texts), r', rest.
           rewrite (chunk_eta _ Hd Hv). repeat split; auto.
           simpl map. rewrite asyncLoop_chunk. unfold bind. now rewrite Hw, Hp.
        -- injection H as <- ->. apply loop_Throw_UnexpectedChar in Hw.
           destruct Hw; discriminate.
  - intros (texts & r & rest & -> & Hd & Hn & Hp).
    revert st toks Hp. induction texts as [|text texts IH]; intros st toks Hp.
    + injection Hp as <-. simpl. rewrite Hd.
      destruct (value r); [reflexivity|reflexivity|discriminate].
    + simpl map in *. simpl app. rewrite asyncLoop_chunk in *. unfold bind in *.
      destruct (withState st (withIterable text)) as [t1 [u|e]]; [|discriminate].
      destruct (asyncLoop u (map chunk texts)) as [t2 [[]|e]] eqn:Ha;
        [|discriminate].
      injection Hp as <-. now rewrite (IH _ _ Ha).
Qed.

Lemma EmptyInputError_iff_witness :
  tokenStream [chunk (chars "(a "); {| done := false; value := Null |}; finished] =
  ([ LParenLexicon (located (at_ 0 0) (at_ 0 1));
     IdentifierLexicon (chars "a") (located (at_ 0 1) (at_ 0 2)) ],
   Throw EmptyInputError).
Proof.
  apply (proj2 (EmptyInputError_iff initialState _ _)).
  exists [chars "(a "], {| done := false; value := Null |}, [finished].
  split; [reflexivity|]. split; [reflexivity|]. split; [reflexivity|].
  vm_compute. reflexivity.
Defined.

(** C5, as stated, fails: a pull that resolves to [done: false] with the
    empty string raises no [EmptyInputError]. *)
Lemma empty_text_raises_nothing :
  done (chunk (chars "")) = false /\
  value (chunk (chars "")) = Text [] /\
  tokenStream [chunk (chars ""); finished] = ([], Return tt) /\
  snd (tokenStream [chunk (chars ""); finished]) <> Throw EmptyInputError.
Proof.
  repeat split. vm_compute. intros H. discriminate H.
Qed.

(** ** UnexpectedChar *)

Lemma asyncLoop_Throw st text rest toks e :
  withState st (withIterable text) = (toks, Throw e) ->
  asyncLoop st (chunk text :: rest) = (toks, Throw e).
Proof. intros H. rewrite asyncLoop_chunk. unfold bind. now rewrite H. Qed.

(** C4. A dispatch raises [UnexpectedChar] if and only if it is a
    dispatch of the Init branch on a character that is neither whitespace,
    nor alphabetic, nor a double quote, nor a parenthesis; the error
    carries that character and the dispatch yields no token.  The driver
    loop then ends at once with that error, after the tokens of the
    dispatches made before and no other, and the scheduler pulls no further
    chunk.  A [#] at top level raises [UnexpectedChar] of [#]. *)
Theorem UnexpectedChar_iff :
  (forall c st toks e,
     withBranch c st = (toks, Throw e) <->
     _branch st = BranchInit /\
     isWhitespace c = false /\ isAlpha c = false /\
     c <> quote /\ c <> lparen /\ c <> rparen /\
     toks = [] /\ e = UnexpectedChar c) /\
  (forall st toks e,
     loop st = (toks, Throw e) <->
     exists ds st' c,
       Steps st ds st' /\ State.current st' = Some c /\
       _branch st' = BranchInit /\
       isWhitespace c = false /\ isAlpha c = false /\
       c <> quote /\ c <> lparen /\ c <> rparen /\
       toks = emitted ds /\ e = UnexpectedChar c) /\
  (forall st text rest toks e,
     withState st (withIterable text) = (toks, Throw e) ->
     asyncLoop st (chunk text :: rest) = (toks, Throw e)) /\
  tokenStream (chunked [chars "#"]) =
    ([], Throw (UnexpectedChar (N_of_ascii "#"))) /\
  tokenStream (chunked [chars "(a #b)"; chars "c"]) =
    ([ LParenLexicon (located (at_ 0 0) (at_ 0 1));
       IdentifierLexicon (chars "a") (located (at_ 0 1) (at_ 0 2));
       WhiteSpaceLexicon 1 (located (at_ 0 2) (at_ 0 3)) ],
     Throw (UnexpectedChar (N_of_ascii "#"))).
Proof.
  assert (R : forall c, recognised c = false <->
                isWhitespace c = false /\ isAlpha c = false /\
                c <> quote /\ c <> lparen /\ c <> rparen).
  { intros c. unfold recognised.
    rewrite !orb_false_iff, !N.eqb_neq. tauto. }
  split; [|split; [|split; [|split]]].
  - intros c st toks e. rewrite withBranch_Throw, R. tauto.
  - intros st toks e. rewrite loop_Throw_Steps. split.
    + intros (ds & st' & c & toks' & Hs & Hc & Hb & ->).
      apply withBranch_Throw in Hb. destruct Hb as (Hb & Hr & -> & ->).
      apply R in Hr. exists ds, st', c. rewrite app_nil_r. tauto.
    + intros (ds & st' & c & Hs & Hc & Hb & Hw & Ha & Hq & Hl & Hp & -> & ->).
      exists ds, st', c, []. rewrite app_nil_r. repeat split; auto.
      apply withBranch_Throw. rewrite R. tauto.
  - apply asyncLoop_Throw.
  - vm_compute. reflexivity.
  - vm_compute. reflexivity.
Qed.

(** ** Chunk-boundary transparency *)

Lemma follows_current r a b c :
  follows r a b -> State.current a = Some c -> State.current b = Some c.
Proof.
  intros [_ Hr] Hc. destruct (current_remaining _ Hc) as [t Ht].
  unfold State.current. rewrite remaining_current, Hr, Ht. reflexivity.
Qed.

Lemma follows_shiftForward r a b c :
  follows r a b -> State.current a = Some c ->
  follows r (State.shiftForward a) (State.shiftForward b).
Proof.
  intros Hf Hc. pose proof (follows_current Hf Hc) as Hc'.
  destruct Hf as [(H1 & H2 & H3 & H4) Hr].
  rewrite (shiftForward_Some _ Hc), (shiftForward_Some _ Hc').
  split; [unfold same_core; simpl; now rewrite H1, H2, H3, H4|]. simpl.
  rewrite !remaining_shiftForward, Hr.
  destruct (current_remaining _ Hc) as [t ->]. reflexivity.
Qed.

Lemma follows_dropBuffer r a b :
  follows r a b -> follows r (State.dropBuffer a) (State.dropBuffer b).
Proof.
  intros [(H1 & H2 & H3 & H4) Hr]. split; [|exact Hr].
  unfold same_core; simpl. now rewrite H1, H4.
Qed.

Lemma follows_setBranch r br a b :
  follows r a b -> follows r (State.setBranch br a) (State.setBranch br b).
Proof.
  intros [(H1 & H2 & H3 & H4) Hr]. split; [|exact Hr].
  unfold same_core; simpl. now rewrite H2, H3, H4.
Qed.

Lemma follows_location r a b :
  follows r a b ->
  State.location a = State.location b /\ State.enqueued a = State.enqueued b.
Proof.
  intros [(H1 & H2 & H3 & H4) _].
  unfold State.location, State.enqueued. now rewrite H2, H3, H4.
Qed.

(** A dispatch reads the state through its current character and its
    core: two states that agree on them are dispatched alike. *)
Lemma withBranch_follows r a b c :
  follows r a b -> State.current a = Some c ->
  match withBranch c a, withBranch c b with
  | (t, Return a'), (t', Return b') => t = t' /\ follows r a' b'
  | (t, Throw e), (t', Throw e') => t = t' /\ e = e'
  | _, _ => False
  end.
Proof.
  intros Hf Hc.
  pose proof (follows_shiftForward Hf Hc) as Hsh.
  pose proof (follows_location Hf) as [Hl He].
  pose proof (follows_location Hsh) as [Hl' _].
  assert (Hb : _branch a = _branch b) by apply Hf.
  unfold withBranch. rewrite <- Hb.
  destruct (_branch a); unfold_branches; repeat break_if; simpl;
    rewrite <- ?Hl, <- ?Hl', <- ?He; split; try reflexivity;
    auto using follows_dropBuffer, follows_setBranch.
Qed.

Lemma loop_congruence st : forall st',
  follows [] st st' -> Process_sim (loop st) (loop st').
Proof.
  apply (loop_induction (fun st r => forall st',
           follows [] st st' -> Process_sim r (loop st'))).
  - intros s Hc s' Hf. rewrite loop_done.
    + split; [reflexivity|]. apply Hf.
    + apply current_None_remaining. destruct Hf as [_ ->].
      apply current_None_remaining in Hc. now rewrite Hc.
  - intros s c toks e Hc Hb s' Hf.
    pose proof (withBranch_follows Hf Hc) as Hw. rewrite Hb in Hw.
    destruct (withBranch c s') as [t' [b'|e']] eqn:Hb'; [contradiction|].
    destruct Hw as [-> ->].
    rewrite (loop_throw _ (follows_current Hf Hc) Hb'). now split.
  - intros s c toks s1 Hc Hb IH s' Hf.
    pose proof (withBranch_follows Hf Hc) as Hw. rewrite Hb in Hw.
    destruct (withBranch c s') as [t' [b'|e']] eqn:Hb'; [|contradiction].
    destruct Hw as [-> Hf1].
    rewrite (loop_return _ (follows_current Hf Hc) Hb').
    destruct (IH _ Hf1) as [Ht Ho]. split; simpl; [now rewrite Ht|exact Ho].
Qed.

(** Running the loop on a text cut in two, the residual state taking the
    second part as new input, is running it on the whole text. *)
Lemma loop_split r st : forall st',
  follows r st st' ->
  Process_sim (update <- loop st ;; loop (State.addInput (withIterable r) update))
              (loop st').
Proof.
  apply (loop_induction (fun st p => forall st',
           follows r st st' ->
           Process_sim (update <- p ;; loop (State.addInput (withIterable r) update))
                       (loop st'))).
  - intros s Hc s' Hf. unfold ret, bind.
    destruct (loop (State.addInput (withIterable r) s)) as [t o] eqn:E.
    simpl app. rewrite <- E. apply loop_congruence.
    destruct Hf as [Hk Hr]. split; [exact Hk|].
    apply current_None_remaining in Hc. rewrite Hr, Hc, app_nil_r. reflexivity.
  - intros s c toks e Hc Hb s' Hf.
    pose proof (withBranch_follows Hf Hc) as Hw. rewrite Hb in Hw.
    destruct (withBranch c s') as [t' [b'|e']] eqn:Hb'; [contradiction|].
    destruct Hw as [-> ->].
    rewrite (loop_throw _ (follows_current Hf Hc) Hb'). now split.
  - intros s c toks s1 Hc Hb IH s' Hf.
    pose proof (withBranch_follows Hf Hc) as Hw. rewrite Hb in Hw.
    destruct (withBranch c s') as [t' [b'|e']] eqn:Hb'; [|contradiction].
    destruct Hw as [-> Hf1].
    rewrite (loop_return _ (follows_current Hf Hc) Hb').
    specialize (IH _ Hf1). destruct IH as [Ht Ho]. unfold bind in *.
    destruct (loop s1) as [t1 [u|e]]; simpl in *.
    + destruct (loop (State.addInput (withIterable r) u)) as [t2 o2].
      simpl in *. split; [now rewrite <- Ht, app_assoc|exact Ho].
    + split; [now rewrite <- Ht|exact Ho].
Qed.

Lemma forget_sim p q : Process_sim p q -> forget p = forget q.
Proof.
  destruct p as [t [a|e]], q as [t' [b|e']]; intros [Ht Ho];
    simpl in *; subst; try contradiction; reflexivity.
Qed.

Lemma asyncLoop_single st text :
  asyncLoop st (chunked [text]) = forget (withState st (withIterable text)).
Proof. reflexivity. Qed.

Lemma asyncLoop_chunked st texts :
  asyncLoop st (chunked texts) = asyncLoop st (chunked [List.concat texts]).
Proof.
  revert st. induction texts as [|text texts IH]; intros st.
  - rewrite asyncLoop_single. unfold withState.
    rewrite loop_done by reflexivity. reflexivity.
  - change (chunked (text :: texts)) with (chunk text :: chunked texts).
    rewrite asyncLoop_chunk, asyncLoop_single. simpl List.concat.
    unfold withState.
    pose proof (@loop_split (List.concat texts)
                  (State.addInput (withIterable text) st)
                  (State.addInput (withIterable (text ++ List.concat texts)) st)) as Hs.
    rewrite <- (forget_sim (Hs (conj (same_core_refl _) eq_refl))).
    unfold bind at 1.
    destruct (loop (State.addInput (withIterable text) st)) as [t1 [u|e]];
      [|reflexivity].
    rewrite IH, asyncLoop_single. unfold withState, forget, bind.
    destruct (loop (State.addInput (withIterable (List.concat texts)) u)) as [t2 [u2|e2]];
      simpl; rewrite ?app_nil_r, ?app_assoc; reflexivity.
Qed.

(** C1. For every finite list of text chunks, the token stream of the
    chunks delivered one at a time is the token stream of their
    concatenation delivered as one chunk: the same tokens (kinds, payloads
    and locations) in the same order, and the same end (completion, or the
    same error after the same tokens), wherever the chunk boundaries
    fall. *)
Theorem chunk_boundary_transparency (texts : list (list char)) :
  tokenStream (chunked texts) = tokenStream (chunked [List.concat texts]).
Proof. apply asyncLoop_chunked. Qed.

(** Boundaries inside an identifier, a whitespace run and a string, and an
    empty chunk. *)
Example chunks_in_the_middle_of_tokens :
  tokenStream (chunked [ chars "(ab"; chars "c  "; chars " " ++ [quote] ++ chars "x";
                         chars ""; chars "y" ++ [quote] ++ chars ")" ]) =
  ([ LParenLexicon (located (at_ 0 0) (at_ 0 1));
     IdentifierLexicon (chars "abc") (located (at_ 0 1) (at_ 0 4));
     WhiteSpaceLexicon 3 (located (at_ 0 4) (at_ 0 7));
     StringLexicon (chars "xy") (located (at_ 0 8) (at_ 0 11));
     RParenLexicon (located (at_ 0 11) (at_ 0 12)) ],
   Return tt).
Proof. vm_compute. reflexivity. Qed.

(** ** Terminators and consumption *)

(** A dispatch leaves the cursor where it is or moves it one character
    forward. *)
Lemma withBranch_cursor c st toks st' :
  State.current st = Some c ->
  withBranch c st = (toks, Return st') ->
  _stream st' = _stream st \/
  _stream st' = {| source := source (_stream st); index := S (index (_stream st)) |}.
Proof.
  intros Hc H.
  assert (Hs : _stream (State.shiftForward st) =
               {| source := source (_stream st); index := S (index (_stream st)) |}).
  { rewrite (shiftForward_Some _ Hc). simpl.
    now apply cursor_shiftForward_index with (c := c). }
  unfold_branches.
  destruct (_branch st); repeat break_if; try discriminate;
    injection H as <- <-; simpl; auto.
Qed.

Lemma consuming_spec d :
  consuming d = true <-> index (_stream (d_to d)) = S (index (_stream (d_from d))).
Proof. unfold consuming. apply Nat.eqb_eq. Qed.

Lemma remaining_next k c r :
  Cursor.remaining k = c :: r ->
  Cursor.remaining {| source := source k; index := S (index k) |} = r.
Proof.
  intros H.
  assert (Hc : Cursor.current k = Some c) by (now rewrite remaining_current, H).
  rewrite <- (cursor_shiftForward_index _ Hc), remaining_shiftForward, H.
  reflexivity.
Qed.

(** The dispatches of a run that exhausts the cursor consume the
    characters that were left to read: each once, in order. *)
Lemma Steps_consumed st ds st' :
  Steps st ds st' -> State.current st' = None ->
  consumed ds = Cursor.remaining (_stream st).
Proof.
  induction 1 as [st|st c toks st1 ds st2 Hc Hb _ IH]; intros Hn.
  - apply current_None_remaining in Hn. now rewrite Hn.
  - specialize (IH Hn). unfold consumed in *. simpl filter.
    destruct (current_remaining _ Hc) as [r Hr].
    destruct (withBranch_cursor _ Hc Hb) as [E|E].
    + replace (consuming _) with false.
      * now rewrite IH, E.
      * symmetry. apply not_true_is_false. rewrite consuming_spec. simpl.
        rewrite E. lia.
    + replace (consuming _) with true.
      * simpl. rewrite IH, E, (remaining_next _ Hr), Hr. reflexivity.
      * symmetry. apply consuming_spec. simpl. now rewrite E.
Qed.

Lemma Steps_moves st ds st' :
  Steps st ds st' ->
  Forall (fun d =>
            State.current (d_from d) = Some (d_char d) /\
            source (_stream (d_to d)) = source (_stream (d_from d)) /\
            (index (_stream (d_to d)) = index (_stream (d_from d)) \/
             index (_stream (d_to d)) = S (index (_stream (d_from d))))) ds.
Proof.
  induction 1 as [st|st c toks st1 ds st2 Hc Hb _ IH]; constructor; auto.
  simpl. split; [exact Hc|].
  destruct (withBranch_cursor _ Hc Hb) as [E|E]; rewrite E; simpl; auto.
Qed.

(** C7. When the Identifier or the Whitespace branch emits its token, it
    leaves the cursor on the terminating character and hands the state to
    the Init branch, and the driver loop dispatches that same character to
    [branchInit]; when the String branch emits its token, the character is
    the closing quote, the cursor has moved past it and the location of
    the token ends after it.  Over a run of the driver that returns, every
    dispatch leaves the cursor in place or moves it by one character, and
    the characters consumed by the dispatches, in order, are exactly the
    characters of the input: none is dropped, none is consumed twice. *)
Theorem terminator_handling :
  (forall c st toks st',
     State.current st = Some c ->
     _branch st = BranchId \/ _branch st = BranchWS ->
     withBranch c st = (toks, Return st') ->
     toks <> [] ->
     (_branch st = BranchId -> isIdChar c = false) /\
     (_branch st = BranchWS -> isWhitespace c = false) /\
     _stream st' = _stream st /\ State.current st' = Some c /\
     _branch st' = BranchInit /\
     loop st = ((toks, Return tt) ;; update <- branchInit c st' ;; loop update)) /\
  (forall c st toks st',
     State.current st = Some c ->
     _branch st = BranchString ->
     withBranch c st = (toks, Return st') ->
     toks <> [] ->
     c = quote /\
     _stream st' = Cursor.shiftForward (_stream st) /\
     index (_stream st') = S (index (_stream st)) /\
     toks = [StringLexicon (_buffer st)
               (located (_bufStart st) (Position.shiftWith (_bufEnd st) quote))]) /\
  (forall st text toks st',
     withState st (withIterable text) = (toks, Return st') ->
     exists ds,
       Steps (State.addInput (withIterable text) st) ds st' /\
       State.current st' = None /\
       toks = emitted ds /\
       consumed ds = text /\
       Forall (fun d =>
                 State.current (d_from d) = Some (d_char d) /\
                 source (_stream (d_to d)) = source (_stream (d_from d)) /\
                 (index (_stream (d_to d)) = index (_stream (d_from d)) \/
                  index (_stream (d_to d)) = S (index (_stream (d_from d))))) ds).
Proof.
  split; [|split].
  - intros c st toks st' Hc Hbr H Hne.
    assert (E : st' = State.setBranch BranchInit (State.dropBuffer st) /\
                (_branch st = BranchId -> isIdChar c = false) /\
                (_branch st = BranchWS -> isWhitespace c = false)).
    { unfold withBranch, branchId, branchWS in H.
      destruct Hbr as [Hbr|Hbr]; rewrite Hbr in *; break_if;
        injection H as <- <-; try (now contradiction Hne);
        repeat split; auto; discriminate. }
    destruct E as (-> & Hi & Hw).
    split; [exact Hi|]. split; [exact Hw|].
    split; [reflexivity|]. split; [exact Hc|]. split; [reflexivity|].
    rewrite (loop_return _ Hc H).
    rewrite (loop_eq (State.setBranch BranchInit (State.dropBuffer st))).
    change (State.current (State.setBranch BranchInit (State.dropBuffer st)))
      with (State.current st).
    rewrite Hc. unfold withBranch. simpl _branch. unfold bind at 3.
    now destruct (update <- branchInit c _ ;; loop update).
  - intros c st toks st' Hc Hbr H Hne.
    unfold withBranch in H. rewrite Hbr in H. unfold branchString in H.
    destruct (c =? quote) eqn:Hq; simpl in H.
    + apply N.eqb_eq in Hq. subst c. injection H as <- <-.
      rewrite (shiftForward_Some _ Hc). simpl.
      unfold State.current in Hc.
      rewrite (cursor_shiftForward_index _ Hc). repeat split.
    + injection H as <- <-. now contradiction Hne.
  - intros st text toks st' H. unfold withState in H.
    apply loop_Return_Steps in H. destruct H as (ds & Hs & Hn & ->).
    exists ds. repeat split; auto.
    + now rewrite (Steps_consumed Hs Hn).
    + now apply Steps_moves in Hs.
Qed.

Lemma terminator_handling_witness :
  withState initialState (withIterable (chars "ab c(")) =
    ([ IdentifierLexicon (chars "ab") (located (at_ 0 0) (at_ 0 2));
       WhiteSpaceLexicon 1 (located (at_ 0 2) (at_ 0 3));
       IdentifierLexicon (chars "c") (located (at_ 0 3) (at_ 0 4));
       LParenLexicon (located (at_ 0 4) (at_ 0 5)) ],
     Return {| _stream := {| source := chars "ab c("; index := 5 |};
               _branch := BranchInit; _buffer := [];
               _bufStart := at_ 0 5; _bufEnd := at_ 0 5 |}) /\
  exists ds,
    Steps (State.addInput (withIterable (chars "ab c(")) initialState) ds
      {| _stream := {| source := chars "ab c("; index := 5 |};
         _branch := BranchInit; _buffer := [];
         _bufStart := at_ 0 5; _bufEnd := at_ 0 5 |} /\
    consumed ds = chars "ab c(".
Proof.
  assert (H : withState initialState (withIterable (chars "ab c(")) =
    ([ IdentifierLexicon (chars "ab") (located (at_ 0 0) (at_ 0 2));
       WhiteSpaceLexicon 1 (located (at_ 0 2) (at_ 0 3));
       IdentifierLexicon (chars "c") (located (at_ 0 3) (at_ 0 4));
       LParenLexicon (located (at_ 0 4) (at_ 0 5)) ],
     Return {| _stream := {| source := chars "ab c("; index := 5 |};
               _branch := BranchInit; _buffer := [];
               _bufStart := at_ 0 5; _bufEnd := at_ 0 5 |}))
    by (vm_compute; reflexivity).
  split; [exact H|].
  destruct (proj2 (proj2 terminator_handling) _ _ _ _ H)
    as (ds & Hs & _ & _ & Hc & _).
  exists ds. split; [exact Hs|exact Hc].
Defined.

(** ** The round trip *)

Ltac position_order :=
  unfold Position.ltb, Position.leb, Position.shiftWith in *;
  repeat match goal with p : Position |- _ => destruct p end;
  simpl in *; repeat break_if; simpl in *;
  rewrite ?orb_true_iff, ?orb_false_iff, ?andb_true_iff, ?andb_false_iff,
    ?N.ltb_lt, ?N.ltb_ge, ?N.leb_le, ?N.leb_gt, ?N.eqb_eq, ?N.eqb_neq in *;
  lia.

Lemma leb_refl p : Position.leb p p = true.
Proof. position_order. Qed.

Lemma leb_trans p q r :
  Position.leb p q = true -> Position.leb q r = true -> Position.leb p r = true.
Proof. intros. position_order. Qed.

Lemma ltb_shiftWith p c : Position.ltb p (Position.shiftWith p c) = true.
Proof. position_order. Qed.

Lemma ltb_leb p q : Position.ltb p q = true -> Position.leb p q = true.
Proof. intros. position_order. Qed.

Lemma ltb_leb_trans p q r :
  Position.ltb p q = true -> Position.leb q r = true -> Position.ltb p r = true.
Proof. intros. position_order. Qed.

Lemma ltb_not_leb p q : Position.ltb p q = true -> Position.leb q p = false.
Proof. intros. position_order. Qed.

Lemma leb_not_ltb p q : Position.leb q p = true -> Position.ltb p q = false.
Proof. intros. position_order. Qed.

(** Positions grow as characters are read. *)
Lemma leb_shiftAll s : forall p, Position.leb p (Position.shiftAll p s) = true.
Proof.
  induction s as [|c s IH]; intros p; simpl.
  - apply leb_refl.
  - eapply leb_trans; [|apply IH]. apply ltb_leb, ltb_shiftWith.
Qed.

Lemma ltb_shiftAll c s p :
  Position.ltb p (Position.shiftAll p (c :: s)) = true.
Proof.
  simpl. eapply ltb_leb_trans; [apply ltb_shiftWith|apply leb_shiftAll].
Qed.

(** No character at or after the end of a span belongs to it. *)
Lemma span_from_after loc text : forall p,
  Position.leb (finish loc) p = true -> span_from p text loc = [].
Proof.
  induction text as [|c text IH]; intros p H; simpl; [reflexivity|].
  rewrite (leb_not_ltb _ _ H), andb_false_r. simpl. apply IH.
  eapply leb_trans; [exact H|]. apply ltb_leb, ltb_shiftWith.
Qed.

(** A span that starts at or before [p] and ends after the characters
    [ys] read from [p] holds exactly [ys]. *)
Lemma span_from_take loc ys zs : forall p,
  Position.leb (start loc) p = true ->
  finish loc = Position.shiftAll p ys ->
  span_from p (ys ++ zs) loc = ys.
Proof.
  induction ys as [|c ys IH]; intros p Hs Hf.
  - simpl in *. apply span_from_after. rewrite Hf. apply leb_refl.
  - simpl app. simpl span_from. rewrite Hs, Hf, ltb_shiftAll. simpl.
    f_equal. apply IH; [|exact Hf].
    eapply leb_trans; [exact Hs|]. apply ltb_leb, ltb_shiftWith.
Qed.

(** The span between the positions reached after [xs] and after
    [xs ++ ys] holds exactly [ys]. *)
Lemma span_from_between loc xs ys zs : forall p,
  start loc = Position.shiftAll p xs ->
  finish loc = Position.shiftAll p (xs ++ ys) ->
  span_from p (xs ++ ys ++ zs) loc = ys.
Proof.
  induction xs as [|c xs IH]; intros p Hs Hf.
  - simpl in *. apply span_from_take; [|exact Hf]. rewrite Hs. apply leb_refl.
  - simpl app. simpl span_from.
    rewrite Hs, (ltb_not_leb _ _ (ltb_shiftAll c xs p)). simpl.
    apply IH; [exact Hs|exact Hf].
Qed.

Lemma span_between before ys zs :
  span (before ++ ys ++ zs)
    (located (Position.shiftAll Position.init before)
             (Position.shiftAll Position.init (before ++ ys))) = ys.
Proof. apply span_from_between; reflexivity. Qed.

Lemma reconstruct_lexemes_app text t1 t2 :
  reconstruct_lexemes text (t1 ++ t2) =
  reconstruct_lexemes text t1 ++ reconstruct_lexemes text t2.
Proof. unfold reconstruct_lexemes. apply flat_map_app. Qed.

Lemma ReadBack_initial text :
  ReadBack text [] (State.addInput (withIterable text) initialState).
Proof. exists []. repeat split. Qed.

Lemma span_buffer text before ys zs s e :
  text = before ++ ys ++ zs ->
  s = Position.shiftAll Position.init before ->
  e = Position.shiftAll Position.init (before ++ ys) ->
  span text (Location.create s e) = ys.
Proof. intros -> -> ->. apply span_between. Qed.

(** Every returning dispatch keeps the tokens and the state in step with
    the text. *)
Lemma ReadBack_withBranch text toks0 c st toks st1 :
  ReadBack text toks0 st ->
  State.current st = Some c ->
  withBranch c st = (toks, Return st1) ->
  ReadBack text (toks0 ++ toks) st1.
Proof.
  intros (before & Ht & Hs & He & Hr & Hi) Hc H.
  destruct (current_remaining _ Hc) as [r Hrem].
  assert (Hrem' : Cursor.remaining (Cursor.shiftForward (_stream st)) = r)
    by (now rewrite remaining_shiftForward, Hrem).
  pose proof (shiftForward_Some _ Hc) as Hsh.
  rewrite Hrem in Ht.
  assert (Hshift : ReadBack text toks0 (State.shiftForward st) \/ _branch st = BranchInit).
  { destruct (_branch st) eqn:Hbr; auto; left; rewrite Hsh;
      exists before; simpl; rewrite Hrem', <- !app_assoc, shiftAll_app;
      rewrite shiftAll_app in He; simpl in *;
      repeat split; auto; try discriminate; now rewrite shiftAll_snoc, He. }
  unfold ReadBack. rewrite reconstruct_lexemes_app.
  unfold withBranch in H. destruct (_branch st) eqn:Hbr.
  - clear Hshift. specialize (Hi eq_refl). rewrite Hi in *. simpl in Ht, Hr.
    rewrite app_nil_r in Hr, He. unfold branchInit in H.
    destruct (isWhitespace c); [injection H as <- <-|].
    { exists before. simpl. rewrite Hi, Hrem, !app_nil_r.
      repeat split; auto; discriminate. }
    destruct (isAlpha c); [injection H as <- <-|].
    { exists before. rewrite Hsh. simpl. rewrite Hrem', !app_nil_r, shiftAll_snoc.
      repeat split; auto; try discriminate. now rewrite He. }
    destruct (c =? quote) eqn:Hq; [injection H as <- <-|].
    { apply N.eqb_eq in Hq. subst c. exists (before ++ [quote]). rewrite Hsh. simpl.
      rewrite Hrem', !app_nil_r, <- app_assoc, shiftAll_snoc. simpl.
      repeat split; auto; try discriminate; now rewrite ?He, ?Hr. }
    destruct (c =? rparen) eqn:Hp; [injection H as <- <-|].
    { apply N.eqb_eq in Hp. subst c. exists (before ++ [rparen]). rewrite Hsh. simpl.
      rewrite Hrem', !app_nil_r, <- app_assoc, shiftAll_snoc. simpl.
      repeat split; auto; now rewrite ?He, ?Hr. }
    destruct (c =? lparen) eqn:Hl; [injection H as <- <-|discriminate].
    { apply N.eqb_eq in Hl. subst c. exists (before ++ [lparen]). rewrite Hsh. simpl.
      rewrite Hrem', !app_nil_r, <- app_assoc, shiftAll_snoc. simpl.
      repeat split; auto; now rewrite ?He, ?Hr. }
  - destruct Hshift as [Hshift|]; [|discriminate].
    unfold branchId in H. destruct (isIdChar c); injection H as <- <-.
    + simpl. rewrite app_nil_r. exact Hshift.
    + exists (before ++ _buffer st). simpl.
      unfold State.enqueued, State.location.
      rewrite (@span_buffer _ _ _ _ _ _ Ht Hs He), Hrem, !app_nil_r, <- app_assoc.
      simpl in Hr. rewrite app_nil_r in Hr. rewrite Hr.
      repeat split; auto.
  - destruct Hshift as [Hshift|]; [|discriminate].
    unfold branchString in H.
    destruct (c =? quote) eqn:Hq; simpl in H; injection H as <- <-.
    + apply N.eqb_eq in Hq. subst c.
      exists (before ++ _buffer st ++ [quote]). rewrite Hsh. simpl.
      unfold State.enqueued. rewrite Hrem', !app_nil_r. simpl in Hr.
      repeat split; auto.
      * now rewrite Ht, <- !app_assoc.
      * now rewrite He, app_assoc, shiftAll_snoc.
      * now rewrite He, app_assoc, shiftAll_snoc.
      * rewrite <- Hr. now rewrite <- !app_assoc.
    + simpl. rewrite app_nil_r. exact Hshift.
  - destruct Hshift as [Hshift|]; [|discriminate].
    unfold branchWS in H. destruct (isWhitespace c); injection H as <- <-.
    + simpl. rewrite app_nil_r. exact Hshift.
    + exists (before ++ _buffer st). simpl.
      unfold State.enqueued, State.location.
      rewrite (@span_buffer _ _ _ _ _ _ Ht Hs He), Hrem, !app_nil_r, <- app_assoc.
      simpl in Hr. rewrite app_nil_r in Hr. rewrite Hr.
      repeat split; auto.
Qed.

Lemma ReadBack_Steps text st ds st' :
  Steps st ds st' ->
  forall toks0, ReadBack text toks0 st -> ReadBack text (toks0 ++ emitted ds) st'.
Proof.
  induction 1 as [st|st c toks st1 ds st2 Hc Hb _ IH]; intros toks0 Hr.
  - unfold emitted. simpl. now rewrite app_nil_r.
  - unfold emitted. simpl. rewrite app_assoc. apply IH.
    eapply ReadBack_withBranch; eauto.
Qed.

(** C3, as the code has it. For every input text that tokenizes without
    error, concatenating, in emission order, the source-text span of each
    Whitespace and Identifier token, the content of each String token
    between two double quotes, and the literal parenthesis of each paren
    token, and then the text pending in the residual state (the opening
    quote of a string under way, and the buffer), gives the input text
    back. *)
Theorem round_trip (text : list char) (toks : list Token) (st' : State) :
  withState initialState (withIterable text) = (toks, Return st') ->
  tokenStream (chunked [text]) = (toks, Return tt) /\
  reconstruct_lexemes text toks ++ pending st' = text.
Proof.
  intros H. split.
  - rewrite (asyncLoop_single initialState text : tokenStream (chunked [text]) = _).
    rewrite H. simpl. now rewrite app_nil_r.
  - unfold withState in H. apply loop_Return_Steps in H.
    destruct H as (ds & Hs & Hn & ->).
    destruct (ReadBack_Steps Hs (ReadBack_initial text))
      as (before & Ht & _ & _ & Hr & _).
    apply current_None_remaining in Hn. rewrite Hn, app_nil_r in Ht.
    simpl in Hr. rewrite Ht at 2. rewrite <- Hr, <- app_assoc. f_equal.
    unfold pending, opened. now destruct (_branch st').
Qed.

Lemma round_trip_witness :
  withState initialState (withIterable (chars "(say " ++ quoted "hi" ++ chars ") x")) =
    ([ LParenLexicon (located (at_ 0 0) (at_ 0 1));
       IdentifierLexicon (chars "say") (located (at_ 0 1) (at_ 0 4));
       WhiteSpaceLexicon 1 (located (at_ 0 4) (at_ 0 5));
       StringLexicon (chars "hi") (located (at_ 0 6) (at_ 0 9));
       RParenLexicon (located (at_ 0 9) (at_ 0 10));
       WhiteSpaceLexicon 1 (located (at_ 0 10) (at_ 0 11)) ],
     Return {| _stream := {| source := chars "(say " ++ quoted "hi" ++ chars ") x";
                             index := 12 |};
               _branch := BranchId; _buffer := chars "x";
               _bufStart := at_ 0 11; _bufEnd := at_ 0 12 |}) /\
  reconstruct_lexemes (chars "(say " ++ quoted "hi" ++ chars ") x")
    [ LParenLexicon (located (at_ 0 0) (at_ 0 1));
      IdentifierLexicon (chars "say") (located (at_ 0 1) (at_ 0 4));
      WhiteSpaceLexicon 1 (located (at_ 0 4) (at_ 0 5));
      StringLexicon (chars "hi") (located (at_ 0 6) (at_ 0 9));
      RParenLexicon (located (at_ 0 9) (at_ 0 10));
      WhiteSpaceLexicon 1 (located (at_ 0 10) (at_ 0 11)) ]
  ++ chars "x" = chars "(say " ++ quoted "hi" ++ chars ") x".
Proof.
  assert (H : withState initialState
                (withIterable (chars "(say " ++ quoted "hi" ++ chars ") x")) =
    ([ LParenLexicon (located (at_ 0 0) (at_ 0 1));
       IdentifierLexicon (chars "say") (located (at_ 0 1) (at_ 0 4));
       WhiteSpaceLexicon 1 (located (at_ 0 4) (at_ 0 5));
       StringLexicon (chars "hi") (located (at_ 0 6) (at_ 0 9));
       RParenLexicon (located (at_ 0 9) (at_ 0 10));
       WhiteSpaceLexicon 1 (located (at_ 0 10) (at_ 0 11)) ],
     Return {| _stream := {| source := chars "(say " ++ quoted "hi" ++ chars ") x";
                             index := 12 |};
               _branch := BranchId; _buffer := chars "x";
               _bufStart := at_ 0 11; _bufEnd := at_ 0 12 |}))
    by (vm_compute; reflexivity).
  split; [exact H|].
  exact (proj2 (@round_trip _ _ _ H)).
Defined.

(** C3, as stated, fails twice: an input that ends inside a token (here
    the identifier [abc]) yields no token for it; and the span of a String
    token (here of the text [a] between double quotes) starts after its
    opening quote. *)
Lemma round_trip_as_stated_fails :
  (tokenStream (chunked [chars "abc"]) = ([], Return tt) /\
   reconstruct (chars "abc") [] = [] /\
   reconstruct (chars "abc") (fst (tokenStream (chunked [chars "abc"])))
     <> chars "abc") /\
  (tokenStream (chunked [quoted "a"]) =
     ([StringLexicon (chars "a") (located (at_ 0 1) (at_ 0 3))], Return tt) /\
   reconstruct (quoted "a") (fst (tokenStream (chunked [quoted "a"])))
     = chars "a" ++ [quote] /\
   reconstruct (quoted "a") (fst (tokenStream (chunked [quoted "a"])))
     <> quoted "a").
Proof.
  repeat split; try (vm_compute; reflexivity);
    vm_compute; intros H; discriminate H.
Qed.


(** * Further properties of the lexer *)

(** ** The tokens of any run, returning or throwing *)

Lemma loop_Steps st toks o :
  loop st = (toks, o) ->
  exists ds st', Steps st ds st' /\ toks = emitted ds /\
    (o = Return st' \/
     exists c, State.current st' = Some c /\ _branch st' = BranchInit /\
               recognised c = false /\ o = Throw (UnexpectedChar c)).
Proof.
  destruct o as [st'|e]; intros H.
  - apply loop_Return_Steps in H. destruct H as (ds & Hs & _ & ->).
    exists ds, st'. auto.
  - apply loop_Throw_Steps in H.
    destruct H as (ds & st' & c & toks' & Hs & Hc & Hb & ->).
    apply withBranch_Throw in Hb. destruct Hb as (Hb & Hr & -> & ->).
    exists ds, st'. rewrite app_nil_r. repeat split; auto.
    right. exists c. auto.
Qed.

Lemma tokenStream_single_tokens text :
  fst (tokenStream (chunked [text])) =
  fst (withState initialState (withIterable text)).
Proof.
  unfold tokenStream. rewrite asyncLoop_single. unfold forget, bind.
  destruct (withState initialState (withIterable text)) as [t [u|e]];
    simpl; now rewrite ?app_nil_r.
Qed.

(** The tokens of a chunked input are those of the driver on the whole
    text. *)
Lemma tokenStream_tokens texts :
  fst (tokenStream (chunked texts)) =
  fst (withState initialState (withIterable (List.concat texts))).
Proof.
  unfold tokenStream. rewrite asyncLoop_chunked. apply tokenStream_single_tokens.
Qed.

(** ** The shape of the buffer *)

Lemma isWhitespace_code_units c : isWhitespace c = true -> code_units c = 1.
Proof.
  unfold isWhitespace, between, code_units. intros H.
  destruct (c <? 65536) eqn:E; [reflexivity|].
  apply N.ltb_ge in E.
  rewrite !orb_true_iff, !andb_true_iff, !N.leb_le, !N.eqb_eq in H. lia.
Qed.

Lemma js_length_whitespace s :
  forallb isWhitespace s = true -> js_length s = N.of_nat (List.length s).
Proof.
  induction s as [|c s IH]; [reflexivity|]. simpl.
  rewrite andb_true_iff. intros [Hc Hs].
  rewrite (isWhitespace_code_units _ Hc), (IH Hs). lia.
Qed.

Lemma forallb_snoc {A} (f : A -> bool) s c :
  forallb f (s ++ [c]) = forallb f s && f c.
Proof. rewrite forallb_app. simpl. now rewrite andb_true_r. Qed.

Lemma Shape_withBranch c st toks st1 :
  Shape st -> State.current st = Some c ->
  withBranch c st = (toks, Return st1) -> Shape st1.
Proof.
  intros Hs Hc H. pose proof (shiftForward_Some _ Hc) as Hsh.
  unfold Shape in *. unfold withBranch in H.
  destruct (_branch st) eqn:Hbr.
  - unfold branchInit in H. rewrite Hsh, Hs in H. clear Hsh.
    destruct (isWhitespace c) eqn:Hw; [injection H as <- <-|].
    { simpl. rewrite Hs. split; [reflexivity|]. intros _. now exists c. }
    destruct (isAlpha c) eqn:Ha; [injection H as <- <-|].
    { simpl. now exists c, []. }
    destruct (c =? quote); [injection H as <- <-; reflexivity|].
    destruct (c =? rparen); [injection H as <- <-; reflexivity|].
    destruct (c =? lparen); [injection H as <- <-; reflexivity|].
    discriminate.
  - unfold branchId in H. rewrite Hsh in H. clear Hsh.
    destruct (isIdChar c) eqn:Hi; injection H as <- <-; simpl; [|reflexivity].
    destruct Hs as (a & r & -> & Ha & Hr).
    exists a, (r ++ [c]). now rewrite forallb_snoc, Hr, Hi.
  - unfold branchString in H. rewrite Hsh in H. clear Hsh.
    destruct (c =? quote) eqn:Hq; simpl in H; injection H as <- <-; simpl;
      [reflexivity|].
    unfold no_quote in *. now rewrite forallb_snoc, Hs, Hq.
  - unfold branchWS in H. rewrite Hsh in H. clear Hsh.
    destruct (isWhitespace c) eqn:Hw; injection H as <- <-; simpl;
      [|reflexivity].
    destruct Hs as [Hs _]. rewrite forallb_snoc, Hs, Hw.
    split; [reflexivity|]. intros E. now destruct (_buffer st).
Qed.

Lemma Shape_Steps st ds st' : Steps st ds st' -> Shape st -> Shape st'.
Proof.
  induction 1; auto. intros Hs. eauto using Shape_withBranch.
Qed.

(** ** What each token says of the text *)

Lemma Faithful_withBranch text toks0 c st toks st1 :
  ReadBack text toks0 st -> Shape st ->
  State.current st = Some c ->
  withBranch c st = (toks, Return st1) ->
  Forall (Faithful text) toks.
Proof.
  intros (before & Ht & Hs & He & _ & _) Hshape Hc H.
  destruct (current_remaining _ Hc) as [r Hrem]. rewrite Hrem in Ht.
  pose proof (shiftForward_Some _ Hc) as Hsh.
  unfold Shape in Hshape. unfold withBranch in H.
  destruct (_branch st) eqn:Hbr.
  - unfold branchInit in H. rewrite Hsh in H. clear Hsh.
    rewrite Hshape in *. rewrite app_nil_r in He. simpl in Ht.
    assert (Hspan : span text
              (Location.create (_bufStart st) (Position.shiftWith (_bufEnd st) c))
              = [c]).
    { apply (@span_buffer text before [c] r); auto.
      now rewrite shiftAll_snoc, He. }
    destruct (isWhitespace c); [injection H as <- <-; constructor|].
    destruct (isAlpha c); [injection H as <- <-; constructor|].
    destruct (c =? quote); [injection H as <- <-; constructor|].
    destruct (c =? rparen) eqn:Hp; [injection H as <- <-|].
    { apply N.eqb_eq in Hp. subst c. repeat constructor. exact Hspan. }
    destruct (c =? lparen) eqn:Hl; [injection H as <- <-|discriminate].
    { apply N.eqb_eq in Hl. subst c. repeat constructor. exact Hspan. }
  - unfold branchId in H.
    destruct (isIdChar c); injection H as <- <-; repeat constructor; auto.
    apply (@span_buffer text before (_buffer st) (c :: r)); auto.
  - unfold branchString in H.
    destruct (c =? quote); simpl in H; injection H as <- <-;
      repeat constructor; auto.
  - unfold branchWS in H.
    destruct (isWhitespace c) eqn:Hw; injection H as <- <-; [constructor|].
    assert (Hspan : span text (State.location st) = _buffer st)
      by (apply (@span_buffer text before (_buffer st) (c :: r)); auto).
    destruct Hshape as [Hall Hne].
    repeat constructor; unfold State.enqueued; rewrite ?Hspan; auto.
    + now apply js_length_whitespace.
    + rewrite (js_length_whitespace _ Hall).
      destruct (_buffer st); simpl; [|lia].
      destruct (Hne eq_refl) as (c' & Hc' & Hw').
      rewrite Hc in Hc'. injection Hc' as <-. congruence.
Qed.

Lemma Faithful_Steps text st ds st' :
  Steps st ds st' ->
  forall toks0, ReadBack text toks0 st -> Shape st ->
  Forall (Faithful text) (emitted ds).
Proof.
  induction 1 as [st|st c toks st1 ds st2 Hc Hb _ IH]; intros toks0 Hr Hs.
  - constructor.
  - unfold emitted. simpl. apply Forall_app. split.
    + eapply Faithful_withBranch; eauto.
    + eapply IH; eauto using ReadBack_withBranch, Shape_withBranch.
Qed.

Lemma tokens_Faithful texts :
  Forall (Faithful (List.concat texts)) (fst (tokenStream (chunked texts))).
Proof.
  rewrite tokenStream_tokens. unfold withState.
  destruct (loop _) as [toks o] eqn:H.
  apply loop_Steps in H. destruct H as (ds & st' & Hs & -> & _).
  simpl. eapply Faithful_Steps; eauto.
  - apply ReadBack_initial.
  - reflexivity.
Qed.

(** X1. Every Identifier token of a token stream carries as payload the
    text at its location in the whole input (the concatenation of the
    chunks); that text is a letter followed by letters, digits and
    hyphens. *)
Theorem identifier_token_is_its_span
  (texts : list (list char)) (repr : list char) (loc : Location) :
  In (IdentifierLexicon repr loc) (fst (tokenStream (chunked texts))) ->
  span (List.concat texts) loc = repr /\
  exists a r, repr = a :: r /\ isAlpha a = true /\ forallb isIdChar r = true.
Proof.
  intros H. pose proof (tokens_Faithful texts) as F.
  rewrite Forall_forall in F. exact (F _ H).
Qed.

Lemma identifier_token_is_its_span_witness :
  In (IdentifierLexicon (chars "x-1") (located (at_ 1 1) (at_ 1 4)))
     (fst (tokenStream (chunked [chars "(a" ++ [newline] ++ chars " x"; chars "-1)"]))) /\
  span (chars "(a" ++ [newline] ++ chars " x-1)") (located (at_ 1 1) (at_ 1 4))
    = chars "x-1" /\
  exists a r, chars "x-1" = a :: r /\ isAlpha a = true /\ forallb isIdChar r = true.
Proof.
  assert (H : In (IdentifierLexicon (chars "x-1") (located (at_ 1 1) (at_ 1 4)))
     (fst (tokenStream (chunked [chars "(a" ++ [newline] ++ chars " x"; chars "-1)"]))))
    by (vm_compute; tauto).
  split; [exact H|].
  exact (@identifier_token_is_its_span
           [chars "(a" ++ [newline] ++ chars " x"; chars "-1)"] _ _ H).
Defined.

(** X2. Every Whitespace token of a token stream counts at least one
    character, and its count is the number of characters of the text at
    its location, which are all whitespace. *)
Theorem whitespace_token_counts_its_span
  (texts : list (list char)) (nchars : N) (loc : Location) :
  In (WhiteSpaceLexicon nchars loc) (fst (tokenStream (chunked texts))) ->
  nchars = N.of_nat (List.length (span (List.concat texts) loc)) /\
  0 < nchars /\
  forallb isWhitespace (span (List.concat texts) loc) = true.
Proof.
  intros H. pose proof (tokens_Faithful texts) as F.
  rewrite Forall_forall in F. exact (F _ H).
Qed.

Lemma whitespace_token_counts_its_span_witness :
  In (WhiteSpaceLexicon 3 (located (at_ 0 1) (at_ 1 1)))
     (fst (tokenStream (chunked [chars "a "; [newline; 160] ++ chars "b "]))) /\
  3 = N.of_nat (List.length
        (span (chars "a " ++ [newline; 160] ++ chars "b ")
              (located (at_ 0 1) (at_ 1 1)))) /\
  0 < 3 /\
  forallb isWhitespace
    (span (chars "a " ++ [newline; 160] ++ chars "b ")
          (located (at_ 0 1) (at_ 1 1))) = true.
Proof.
  assert (H : In (WhiteSpaceLexicon 3 (located (at_ 0 1) (at_ 1 1)))
     (fst (tokenStream (chunked [chars "a "; [newline; 160] ++ chars "b "]))))
    by (vm_compute; tauto).
  split; [exact H|].
  exact (@whitespace_token_counts_its_span
           [chars "a "; [newline; 160] ++ chars "b "] _ _ H).
Defined.

(** X3. The content of a String token never holds a double quote: a
    string ends at the first double quote after the one that opened it. *)
Theorem string_token_has_no_quote
  (texts : list (list char)) (content : list char) (loc : Location) :
  In (StringLexicon content loc) (fst (tokenStream (chunked texts))) ->
  no_quote content = true.
Proof.
  intros H. pose proof (tokens_Faithful texts) as F.
  rewrite Forall_forall in F. exact (F _ H).
Qed.

Lemma string_token_has_no_quote_witness :
  In (StringLexicon (chars "a#(b") (located (at_ 0 1) (at_ 0 6)))
     (fst (tokenStream (chunked [quoted "a#(b" ++ quoted ""]))) /\
  no_quote (chars "a#(b") = true.
Proof.
  assert (H : In (StringLexicon (chars "a#(b") (located (at_ 0 1) (at_ 0 6)))
     (fst (tokenStream (chunked [quoted "a#(b" ++ quoted ""]))))
    by (vm_compute; tauto).
  split; [exact H|].
  exact (@string_token_has_no_quote [quoted "a#(b" ++ quoted ""] _ _ H).
Defined.

(** X4. The location of a paren token covers exactly one character of
    the input, the parenthesis itself. *)
Theorem paren_token_covers_its_parenthesis
  (texts : list (list char)) (loc : Location) :
  (In (LParenLexicon loc) (fst (tokenStream (chunked texts))) ->
   span (List.concat texts) loc = [lparen]) /\
  (In (RParenLexicon loc) (fst (tokenStream (chunked texts))) ->
   span (List.concat texts) loc = [rparen]).
Proof.
  pose proof (tokens_Faithful texts) as F. rewrite Forall_forall in F.
  split; intros H; exact (F _ H).
Qed.

Lemma paren_token_covers_its_parenthesis_witness :
  In (RParenLexicon (located (at_ 0 2) (at_ 0 3)))
     (fst (tokenStream (chunked [chars "(a"; chars ")"]))) /\
  span (chars "(a)") (located (at_ 0 2) (at_ 0 3)) = [rparen].
Proof.
  assert (H : In (RParenLexicon (located (at_ 0 2) (at_ 0 3)))
     (fst (tokenStream (chunked [chars "(a"; chars ")"]))))
    by (vm_compute; tauto).
  split; [exact H|].
  exact (proj2 (@paren_token_covers_its_parenthesis [chars "(a"; chars ")"] _) H).
Defined.

(** ** The order of the tokens *)

Lemma leb_ltb_trans p q r :
  Position.leb p q = true -> Position.ltb q r = true -> Position.ltb p r = true.
Proof. intros. position_order. Qed.

Lemma in_order_weaken p q toks :
  Position.leb p q = true -> in_order q toks -> in_order p toks.
Proof.
  destruct toks as [|t rest]; simpl; [trivial|].
  intros H (H1 & H2 & H3). repeat split; auto. eapply leb_trans; eauto.
Qed.

Lemma BufferInv_leb st : BufferInv st -> Position.leb (_bufStart st) (_bufEnd st) = true.
Proof. intros H. rewrite H. apply leb_shiftAll. Qed.

(** A dispatch yields nothing and leaves [_bufStart] where it is or moves
    it forward, or yields one token, which runs from the old [_bufStart]
    to the new one, further on. *)
Lemma order_withBranch c st toks st1 :
  BufferInv st -> Shape st -> State.current st = Some c ->
  withBranch c st = (toks, Return st1) ->
  (toks = [] /\ Position.leb (_bufStart st) (_bufStart st1) = true) \/
  (exists t, toks = [t] /\
             start (token_location t) = _bufStart st /\
             finish (token_location t) = _bufStart st1 /\
             Position.ltb (_bufStart st) (_bufStart st1) = true).
Proof.
  intros Hi Hshape Hc H. pose proof (BufferInv_leb Hi) as Hle.
  pose proof (shiftForward_Some _ Hc) as Hsh.
  assert (Hlt : Position.ltb (_bufStart st) (Position.shiftWith (_bufEnd st) c) = true)
    by (eapply leb_ltb_trans; [exact Hle|apply ltb_shiftWith]).
  assert (Hne : _buffer st <> [] ->
                Position.ltb (_bufStart st) (_bufEnd st) = true).
  { intros Hb. rewrite Hi. destruct (_buffer st) as [|a r]; [easy|].
    apply ltb_shiftAll. }
  unfold Shape in Hshape. unfold withBranch in H.
  destruct (_branch st) eqn:Hbr.
  - unfold branchInit in H. rewrite Hsh in H. clear Hsh.
    destruct (isWhitespace c); [injection H as <- <-|].
    { left. split; [reflexivity|apply leb_refl]. }
    destruct (isAlpha c); [injection H as <- <-|].
    { left. split; [reflexivity|apply leb_refl]. }
    destruct (c =? quote); [injection H as <- <-|].
    { left. split; [reflexivity|]. simpl. now apply ltb_leb. }
    destruct (c =? rparen); [injection H as <- <-|].
    { right. eexists. split; [reflexivity|]. simpl. auto. }
    destruct (c =? lparen); [injection H as <- <-|discriminate].
    { right. eexists. split; [reflexivity|]. simpl. auto. }
  - unfold branchId in H. rewrite Hsh in H. clear Hsh.
    destruct (isIdChar c); injection H as <- <-.
    + left. split; [reflexivity|apply leb_refl].
    + right. eexists. split; [reflexivity|]. simpl. repeat split.
      apply Hne. destruct Hshape as (a & r & -> & _). discriminate.
  - unfold branchString in H. rewrite Hsh in H. clear Hsh.
    destruct (c =? quote); simpl in H; injection H as <- <-.
    + right. eexists. split; [reflexivity|]. simpl. auto.
    + left. split; [reflexivity|apply leb_refl].
  - unfold branchWS in H. rewrite Hsh in H. clear Hsh.
    destruct (isWhitespace c) eqn:Hw; injection H as <- <-.
    + left. split; [reflexivity|apply leb_refl].
    + right. eexists. split; [reflexivity|]. simpl. repeat split.
      apply Hne. intros E. destruct Hshape as [_ Hs].
      destruct (Hs E) as (c' & Hc' & Hw').
      rewrite Hc in Hc'. injection Hc' as <-. congruence.
Qed.

Lemma in_order_Steps st ds st' :
  Steps st ds st' -> BufferInv st -> Shape st ->
  in_order (_bufStart st) (emitted ds).
Proof.
  induction 1 as [st|st c toks st1 ds st2 Hc Hb _ IH]; intros Hi Hs.
  - exact I.
  - specialize (IH (@BufferInv_withBranch _ _ _ _ Hi Hb)
                   (@Shape_withBranch _ _ _ _ Hs Hc Hb)).
    unfold emitted in *. simpl.
    destruct (@order_withBranch _ _ _ _ Hi Hs Hc Hb)
      as [[-> Hle]|(t & -> & H1 & H2 & H3)].
    + simpl. eapply in_order_weaken; eauto.
    + simpl. rewrite H1, H2. repeat split; auto. apply leb_refl.
Qed.

(** X5. The tokens of a token stream come in the order of the text and do
    not overlap: the location of each token ends after its start, and
    starts at or after the end of the token before it. *)
Theorem tokens_in_order (texts : list (list char)) :
  in_order Position.init (fst (tokenStream (chunked texts))).
Proof.
  rewrite tokenStream_tokens. unfold withState.
  destruct (loop _) as [toks o] eqn:H.
  apply loop_Steps in H. destruct H as (ds & st' & Hs & -> & _).
  simpl. apply (@in_order_Steps _ _ _ Hs); reflexivity.
Qed.

(** ** Resuming the driver *)

(** X6. [withState] resumes: running it on a text [a], and then on a text
    [b] from the state it returned, yields the tokens that running it on
    [a ++ b] yields, and ends alike: with the same error, or with states
    of the same branch, buffer and positions. *)
Theorem withState_resumes (st : State) (a b : list char) :
  Process_sim
    (update <- withState st (withIterable a) ;; withState update (withIterable b))
    (withState st (withIterable (a ++ b))).
Proof.
  unfold withState. apply loop_split. split; [repeat split|reflexivity].
Qed.

(** X7. Tokens are final once yielded: the tokens of an input are the
    first tokens of every input that goes on with more chunks. *)
Theorem tokens_are_never_retracted (texts more : list (list char)) :
  exists toks,
    fst (tokenStream (chunked (texts ++ more))) =
    fst (tokenStream (chunked texts)) ++ toks.
Proof.
  rewrite !tokenStream_tokens, concat_app.
  destruct (@loop_split (List.concat more)
              (State.addInput (withIterable (List.concat texts)) initialState)
              (State.addInput
                 (withIterable (List.concat texts ++ List.concat more)) initialState)
              (conj (same_core_refl _) eq_refl))
    as [Ht _].
  unfold withState. rewrite <- Ht. unfold bind.
  change (loop (State.addInput (withIterable (List.concat texts)) initialState))
    with (withState initialState (withIterable (List.concat texts))).
  destruct (withState initialState (withIterable (List.concat texts)))
    as [t1 [u|e]]; simpl.
  - destruct (loop (State.addInput (withIterable (List.concat more)) u)) as [t2 o].
    now exists t2.
  - exists []. now rewrite app_nil_r.
Qed.

(** ** Where errors come from *)

Lemma Steps_suffix st ds st' :
  Steps st ds st' ->
  exists pre, Cursor.remaining (_stream st) = pre ++ Cursor.remaining (_stream st').
Proof.
  induction 1 as [st|st c toks st1 ds st2 Hc Hb _ [pre IH]].
  - now exists [].
  - destruct (current_remaining _ Hc) as [r Hr].
    destruct (withBranch_cursor _ Hc Hb) as [E|E]; rewrite E in IH.
    + now exists pre.
    + rewrite (remaining_next _ Hr) in IH. exists (c :: pre).
      now rewrite Hr, IH.
Qed.

(** X8. The driver fails on a character of the text it was given, and on
    no other: the [UnexpectedChar] it throws carries a character of the
    text that is neither whitespace, nor a letter, nor a double quote, nor
    a parenthesis; a text of such characters only is tokenized without
    error, whatever the state it is resumed from. *)
Theorem unexpected_char_is_in_the_text (st : State) (text : list char) :
  (forall toks e,
     withState st (withIterable text) = (toks, Throw e) ->
     exists c, e = UnexpectedChar c /\ In c text /\ recognised c = false) /\
  (Forall (fun c => recognised c = true) text ->
   exists toks st', withState st (withIterable text) = (toks, Return st')).
Proof.
  assert (A : forall toks e,
     withState st (withIterable text) = (toks, Throw e) ->
     exists c, e = UnexpectedChar c /\ In c text /\ recognised c = false).
  { intros toks e H. unfold withState in H. apply loop_Steps in H.
    destruct H as (ds & st' & Hs & _ & [H|(c & Hc & _ & Hr & H)]);
      [discriminate|].
    injection H as ->. exists c. repeat split; auto.
    destruct (Steps_suffix Hs) as [pre Hp]. simpl in Hp.
    destruct (current_remaining _ Hc) as [r Hrem].
    change (Cursor.remaining (withIterable text)) with text in Hp.
    rewrite Hp, Hrem. apply in_or_app. right. now left. }
  split; [exact A|].
  intros Hall. destruct (withState st (withIterable text)) as [toks [st'|e]] eqn:H.
  - eauto.
  - destruct (A _ _ eq_refl) as (c & _ & Hin & Hr).
    rewrite Forall_forall in Hall. rewrite (Hall _ Hin) in Hr. discriminate.
Qed.

Lemma unexpected_char_is_in_the_text_witness :
  withState residual_paren_ab (withIterable (chars "c #")) =
    ([ IdentifierLexicon (chars "abc") (located (at_ 0 1) (at_ 0 4));
       WhiteSpaceLexicon 1 (located (at_ 0 4) (at_ 0 5)) ],
     Throw (UnexpectedChar (N_of_ascii "#"))) /\
  exists c, UnexpectedChar (N_of_ascii "#") = UnexpectedChar c /\
            In c (chars "c #") /\ recognised c = false.
Proof.
  assert (H : withState residual_paren_ab (withIterable (chars "c #")) =
    ([ IdentifierLexicon (chars "abc") (located (at_ 0 1) (at_ 0 4));
       WhiteSpaceLexicon 1 (located (at_ 0 4) (at_ 0 5)) ],
     Throw (UnexpectedChar (N_of_ascii "#")))) by (vm_compute; reflexivity).
  split; [exact H|].
  exact (proj1 (unexpected_char_is_in_the_text residual_paren_ab (chars "c #")) _ _ H).
Defined.

(** X9. A digit or a hyphen may go on an identifier but not start one:
    when the Init branch meets an identifier character that is not a
    letter, the driver fails at once with [UnexpectedChar] of that
    character and yields nothing. *)
Theorem identifier_cannot_start_with_digit_or_hyphen
  (st : State) (c : char) (rest : list char) :
  _branch st = BranchInit ->
  isIdChar c = true -> isAlpha c = false ->
  withState st (withIterable (c :: rest)) = ([], Throw (UnexpectedChar c)).
Proof.
  intros Hb Hi Ha. unfold withState.
  apply loop_throw with (c := c); [reflexivity|].
  apply withBranch_Throw. repeat split; auto.
  unfold recognised. rewrite Ha.
  unfold isIdChar, isAlpha, isWhitespace, between, quote, rparen, lparen in *.
  rewrite !orb_false_iff, !andb_false_iff, !N.leb_gt, !N.eqb_neq.
  rewrite !orb_true_iff, !andb_true_iff, !N.leb_le, !N.eqb_eq in Hi.
  rewrite !orb_false_iff, !andb_false_iff, !N.leb_gt in Ha.
  lia.
Qed.

Lemma identifier_cannot_start_with_digit_or_hyphen_witness :
  _branch initialState = BranchInit /\
  isIdChar (N_of_ascii "-") = true /\ isAlpha (N_of_ascii "-") = false /\
  withState initialState (withIterable (chars "-x")) =
    ([], Throw (UnexpectedChar (N_of_ascii "-"))).
Proof.
  split; [reflexivity|]. split; [reflexivity|]. split; [reflexivity|].
  apply (@identifier_cannot_start_with_digit_or_hyphen
           initialState (N_of_ascii "-") (chars "x")); reflexivity.
Defined.

(** ** The end of the input inside a token *)

Lemma withBranch_accumulates c st :
  accumulates (_branch st) c = true ->
  withBranch c st = ret (State.shiftForward st).
Proof.
  unfold accumulates, withBranch. destruct (_branch st); intros H;
    [discriminate| | |]; unfold_branches; now rewrite H.
Qed.

(** A branch that is given only characters it accumulates reads them all
    into the buffer and yields nothing. *)
Lemma loop_accumulates r : forall st,
  Cursor.remaining (_stream st) = r ->
  forallb (accumulates (_branch st)) r = true ->
  exists st', loop st = ([], Return st') /\
              _branch st' = _branch st /\ _buffer st' = _buffer st ++ r /\
              _bufStart st' = _bufStart st.
Proof.
  induction r as [|c r IH]; intros st Hr Hall.
  - exists st. rewrite loop_done, app_nil_r; [auto|].
    now apply current_None_remaining.
  - simpl in Hall. apply andb_true_iff in Hall. destruct Hall as [Hc Hall].
    assert (Hcur : State.current st = Some c)
      by (unfold State.current; now rewrite remaining_current, Hr).
    pose proof (shiftForward_Some _ Hcur) as Hsh.
    destruct (IH (State.shiftForward st)) as (st' & Hl & Hb & Hbuf & Hs).
    + rewrite Hsh. simpl. now rewrite remaining_shiftForward, Hr.
    + now rewrite Hsh.
    + exists st'. rewrite (loop_return _ Hcur (withBranch_accumulates _ _ Hc)), Hl.
      rewrite Hb, Hbuf, Hs, Hsh. simpl. now rewrite <- app_assoc.
Qed.

(** X10. An input that ends inside a token yields no token for it: a
    letter followed by identifier characters, a double quote followed by
    characters other than the double quote, or a run of whitespace, given
    to the initial state, is read into the buffer of the residual state,
    and the token stream of that input alone is empty and ends without
    error. *)
Theorem unterminated_token_is_not_emitted :
  (forall a s,
     isAlpha a = true -> forallb isIdChar s = true ->
     tokenStream (chunked [a :: s]) = ([], Return tt) /\
     exists st', withState initialState (withIterable (a :: s)) = ([], Return st') /\
                 _branch st' = BranchId /\ _buffer st' = a :: s) /\
  (forall s,
     no_quote s = true ->
     tokenStream (chunked [quote :: s]) = ([], Return tt) /\
     exists st', withState initialState (withIterable (quote :: s)) = ([], Return st') /\
                 _branch st' = BranchString /\ _buffer st' = s) /\
  (forall w s,
     isWhitespace w = true -> forallb isWhitespace s = true ->
     tokenStream (chunked [w :: s]) = ([], Return tt) /\
     exists st', withState initialState (withIterable (w :: s)) = ([], Return st') /\
                 _branch st' = BranchWS /\ _buffer st' = w :: s).
Proof.
  assert (T : forall text st',
            withState initialState (withIterable text) = ([], Return st') ->
            tokenStream (chunked [text]) = ([], Return tt)).
  { intros text st' H. unfold tokenStream. rewrite asyncLoop_single, H.
    reflexivity. }
  split; [|split].
  - intros a s Ha Hs.
    assert (Hw : isWhitespace a = false).
    { unfold isAlpha, isWhitespace, between in *.
      rewrite !orb_false_iff, !andb_false_iff, !N.leb_gt, !N.eqb_neq.
      rewrite !orb_true_iff, !andb_true_iff, !N.leb_le in Ha. lia. }
    set (st0 := State.addInput (withIterable (a :: s)) initialState).
    assert (Hb : withBranch a st0 =
                 ret (State.setBranch BranchId (State.shiftForward st0))).
    { unfold withBranch, branchInit. simpl _branch. cbv iota.
      now rewrite Hw, Ha. }
    destruct (@loop_accumulates s (State.setBranch BranchId (State.shiftForward st0)))
      as (st' & Hl & Hbr & Hbuf & _); [reflexivity|exact Hs|].
    assert (E : withState initialState (withIterable (a :: s)) = ([], Return st')).
    { unfold withState. fold st0.
      rewrite (@loop_return st0 a [] _ eq_refl Hb), Hl. reflexivity. }
    split; [exact (T _ _ E)|]. exists st'. auto.
  - intros s Hs.
    set (st0 := State.addInput (withIterable (quote :: s)) initialState).
    assert (Hb : withBranch quote st0 =
                 ret (State.setBranch BranchString
                        (State.dropBuffer (State.shiftForward st0))))
      by reflexivity.
    destruct (@loop_accumulates s
                (State.setBranch BranchString
                   (State.dropBuffer (State.shiftForward st0))))
      as (st' & Hl & Hbr & Hbuf & _); [reflexivity|exact Hs|].
    assert (E : withState initialState (withIterable (quote :: s)) = ([], Return st')).
    { unfold withState. fold st0.
      rewrite (@loop_return st0 quote [] _ eq_refl Hb), Hl. reflexivity. }
    split; [exact (T _ _ E)|]. exists st'. auto.
  - intros w s Hw Hs.
    set (st0 := State.addInput (withIterable (w :: s)) initialState).
    assert (Hb : withBranch w st0 = ret (State.setBranch BranchWS st0)).
    { unfold withBranch, branchInit. simpl _branch. cbv iota. now rewrite Hw. }
    destruct (@loop_accumulates (w :: s) (State.setBranch BranchWS st0))
      as (st' & Hl & Hbr & Hbuf & _);
      [reflexivity
      |change (forallb isWhitespace (w :: s) = true); simpl; now rewrite Hw, Hs|].
    assert (E : withState initialState (withIterable (w :: s)) = ([], Return st')).
    { unfold withState. fold st0.
      rewrite (@loop_return st0 w [] _ eq_refl Hb), Hl. reflexivity. }
    split; [exact (T _ _ E)|]. exists st'. auto.
Qed.

Lemma unterminated_token_is_not_emitted_witness :
  isAlpha (N_of_ascii "a") = true /\ forallb isIdChar (chars "b-2") = true /\
  tokenStream (chunked [chars "ab-2"]) = ([], Return tt) /\
  exists st', withState initialState (withIterable (chars "ab-2")) = ([], Return st') /\
              _branch st' = BranchId /\ _buffer st' = chars "ab-2".
Proof.
  split; [reflexivity|]. split; [reflexivity|].
  apply (proj1 unterminated_token_is_not_emitted (N_of_ascii "a") (chars "b-2"));
    reflexivity.
Defined.

(** ** Counting *)

(** X11. The end position of the residual state is the position of the
    end of the text: every character read has moved it, those that belong
    to no token's payload (the quotes of a string, whitespace, parentheses)
    like the others. *)
Theorem end_position_counts_every_character
  (text : list char) (toks : list Token) (st' : State) :
  withState initialState (withIterable text) = (toks, Return st') ->
  _bufEnd st' = Position.shiftAll Position.init text.
Proof.
  intros H. unfold withState in H. apply loop_Return_Steps in H.
  destruct H as (ds & Hs & Hn & ->).
  destruct (ReadBack_Steps Hs (ReadBack_initial text))
    as (before & Ht & _ & He & _).
  apply current_None_remaining in Hn. rewrite Hn, app_nil_r in Ht.
  now rewrite He, <- Ht.
Qed.

Lemma end_position_counts_every_character_witness :
  withState initialState (withIterable (quoted "a" ++ [newline] ++ chars "(b")) =
    ([ StringLexicon (chars "a") (located (at_ 0 1) (at_ 0 3));
       WhiteSpaceLexicon 1 (located (at_ 0 3) (at_ 1 0));
       LParenLexicon (located (at_ 1 0) (at_ 1 1)) ],
     Return {| _stream := {| source := quoted "a" ++ [newline] ++ chars "(b";
                             index := 6 |};
               _branch := BranchId; _buffer := chars "b";
               _bufStart := at_ 1 1; _bufEnd := at_ 1 2 |}) /\
  at_ 1 2 = Position.shiftAll Position.init (quoted "a" ++ [newline] ++ chars "(b").
Proof.
  assert (H : withState initialState
                (withIterable (quoted "a" ++ [newline] ++ chars "(b")) =
    ([ StringLexicon (chars "a") (located (at_ 0 1) (at_ 0 3));
       WhiteSpaceLexicon 1 (located (at_ 0 3) (at_ 1 0));
       LParenLexicon (located (at_ 1 0) (at_ 1 1)) ],
     Return {| _stream := {| source := quoted "a" ++ [newline] ++ chars "(b";
                             index := 6 |};
               _branch := BranchId; _buffer := chars "b";
               _bufStart := at_ 1 1; _bufEnd := at_ 1 2 |}))
    by (vm_compute; reflexivity).
  split; [exact H|].
  exact (@end_position_counts_every_character _ _ _ H).
Defined.

Lemma Faithful_lexemes text toks :
  Forall (Faithful text) toks ->
  (List.length toks <= List.length (reconstruct_lexemes text toks))%nat.
Proof.
  induction 1 as [|t toks Ht _ IH]; [apply le_n|].
  unfold reconstruct_lexemes in *. simpl. rewrite length_app.
  assert (1 <= List.length (lexeme text t))%nat; [|lia].
  destruct t as [loc|loc|repr loc|content loc|n loc]; simpl in *.
  - lia.
  - lia.
  - destruct Ht as (-> & a & r & -> & _). simpl. lia.
  - lia.
  - destruct Ht as (-> & Hn & _). lia.
Qed.

(** X12. A token stream never holds more tokens than the input holds
    characters. *)
Theorem no_more_tokens_than_characters (texts : list (list char)) :
  (List.length (fst (tokenStream (chunked texts)))
   <= List.length (List.concat texts))%nat.
Proof.
  rewrite tokenStream_tokens. unfold withState.
  destruct (loop _) as [toks o] eqn:H.
  apply loop_Steps in H. destruct H as (ds & st' & Hs & -> & _). simpl.
  pose proof (Faithful_Steps Hs (ReadBack_initial _) eq_refl) as F.
  apply Faithful_lexemes in F.
  destruct (ReadBack_Steps Hs (ReadBack_initial (List.concat texts)))
    as (before & Ht & _ & _ & Hr & _).
  simpl in Hr. apply (f_equal (@List.length char)) in Ht, Hr.
  rewrite !length_app in *. lia.
Qed.

(** ** Tokens on one line *)

Lemma Extent_withBranch c st toks st1 :
  BufferInv st -> Shape st -> State.current st = Some c ->
  withBranch c st = (toks, Return st1) ->
  Forall Extent toks.
Proof.
  intros Hi Hshape Hc H. pose proof (shiftForward_Some _ Hc) as Hsh.
  unfold BufferInv in Hi. unfold Shape in Hshape. unfold withBranch in H.
  destruct (_branch st) eqn:Hbr.
  - unfold branchInit in H. rewrite Hsh in H. clear Hsh.
    rewrite Hshape in Hi. simpl in Hi.
    destruct (isWhitespace c); [injection H as <- <-; constructor|].
    destruct (isAlpha c); [injection H as <- <-; constructor|].
    destruct (c =? quote); [injection H as <- <-; constructor|].
    destruct (c =? rparen) eqn:Hp; [injection H as <- <-|].
    { apply N.eqb_eq in Hp. subst c. repeat constructor. simpl. now rewrite Hi. }
    destruct (c =? lparen) eqn:Hl; [injection H as <- <-|discriminate].
    { apply N.eqb_eq in Hl. subst c. repeat constructor. simpl. now rewrite Hi. }
  - unfold branchId in H.
    destruct (isIdChar c); injection H as <- <-; repeat constructor. exact Hi.
  - unfold branchString in H.
    destruct (c =? quote); simpl in H; injection H as <- <-; repeat constructor.
  - unfold branchWS in H.
    destruct (isWhitespace c); injection H as <- <-; repeat constructor.
Qed.

Lemma Extent_Steps st ds st' :
  Steps st ds st' -> BufferInv st -> Shape st -> Forall Extent (emitted ds).
Proof.
  induction 1 as [st|st c toks st1 ds st2 Hc Hb _ IH]; intros Hi Hs.
  - constructor.
  - unfold emitted. simpl. apply Forall_app. split.
    + eapply Extent_withBranch; eauto.
    + apply IH; eauto using BufferInv_withBranch, Shape_withBranch.
Qed.

Lemma isIdChar_not_newline c : isIdChar c = true -> (c =? newline) = false.
Proof.
  unfold isIdChar, between, newline. intros H. apply N.eqb_neq.
  rewrite !orb_true_iff, !andb_true_iff, !N.leb_le, !N.eqb_eq in H. lia.
Qed.

Lemma isAlpha_isIdChar c : isAlpha c = true -> isIdChar c = true.
Proof. unfold isAlpha, isIdChar. intros ->. reflexivity. Qed.

Lemma shiftAll_one_line s : forall p,
  forallb isIdChar s = true ->
  Position.shiftAll p s =
  {| line := line p; column := column p + N.of_nat (List.length s) |}.
Proof.
  induction s as [|c s IH]; intros p H.
  - simpl. destruct p; simpl. f_equal. lia.
  - simpl in H. apply andb_true_iff in H. destruct H as [Hc Hs].
    change (Position.shiftAll p (c :: s))
      with (Position.shiftAll (Position.shiftWith p c) s).
    rewrite (IH _ Hs). unfold Position.shiftWith.
    rewrite (isIdChar_not_newline _ Hc). simpl. f_equal. lia.
Qed.

(** X13. An Identifier token lies on one line, and the columns of its
    location differ by the length of its payload; a paren token runs from
    a column to the next one of the same line. *)
Theorem identifier_and_paren_tokens_are_on_one_line
  (texts : list (list char)) (t : Token) :
  In t (fst (tokenStream (chunked texts))) ->
  match t with
  | IdentifierLexicon repr loc =>
      line (finish loc) = line (start loc) /\
      column (finish loc) = column (start loc) + N.of_nat (List.length repr)
  | LParenLexicon loc | RParenLexicon loc =>
      line (finish loc) = line (start loc) /\
      column (finish loc) = column (start loc) + 1
  | _ => True
  end.
Proof.
  intros H.
  pose proof (tokens_Faithful texts) as F. rewrite Forall_forall in F.
  specialize (F _ H).
  assert (E : Extent t).
  { revert H. rewrite tokenStream_tokens. unfold withState.
    destruct (loop _) as [toks o] eqn:Hl.
    apply loop_Steps in Hl. destruct Hl as (ds & st' & Hs & -> & _). simpl.
    pose proof (@Extent_Steps _ _ _ Hs eq_refl eq_refl) as X.
    rewrite Forall_forall in X. apply X. }
  destruct t as [loc|loc|repr loc|content loc|n loc]; simpl in *; auto.
  - rewrite E. split; reflexivity.
  - rewrite E. split; reflexivity.
  - destruct F as (_ & a & r & -> & Ha & Hr).
    rewrite E, shiftAll_one_line; [split; reflexivity|].
    simpl. now rewrite (isAlpha_isIdChar _ Ha), Hr.
Qed.

Lemma identifier_and_paren_tokens_are_on_one_line_witness :
  In (IdentifierLexicon (chars "x-1") (located (at_ 1 1) (at_ 1 4)))
     (fst (tokenStream (chunked [chars "(a" ++ [newline] ++ chars " x"; chars "-1)"]))) /\
  line (at_ 1 4) = line (at_ 1 1) /\
  column (at_ 1 4) = column (at_ 1 1) + N.of_nat (List.length (chars "x-1")).
Proof.
  assert (H : In (IdentifierLexicon (chars "x-1") (located (at_ 1 1) (at_ 1 4)))
     (fst (tokenStream (chunked [chars "(a" ++ [newline] ++ chars " x"; chars "-1)"]))))
    by (vm_compute; tauto).
  split; [exact H|].
  exact (@identifier_and_paren_tokens_are_on_one_line
           [chars "(a" ++ [newline] ++ chars " x"; chars "-1)"] _ H).
Defined.

(** ** The end of the source *)

(** X14. Nothing is read of a source after the pull that resolved to
    [done: true]: what the following pulls would resolve to, even a
    [null] value, changes neither the tokens nor the end of the stream. *)
Theorem nothing_is_pulled_after_done
  (st : State) (src : list IterResult) (r : IterResult) (rest : list IterResult) :
  done r = true ->
  asyncLoop st (src ++ r :: rest) = asyncLoop st (src ++ [r]).
Proof.
  intros Hd. revert st. induction src as [|p src IH]; intros st; simpl.
  - now rewrite Hd.
  - destruct (done p), (value p); try reflexivity.
    unfold bind. destruct (withState st (withIterable text)) as [t [u|e]];
      [|reflexivity].
    now rewrite IH.
Qed.

Lemma nothing_is_pulled_after_done_witness :
  done finished = true /\
  tokenStream ([chunk (chars "(a)")] ++ finished
                 :: [ {| done := false; value := Null |}; chunk (chars "#") ]) =
  tokenStream ([chunk (chars "(a)")] ++ [finished]).
Proof.
  split; [reflexivity|].
  apply (@nothing_is_pulled_after_done initialState [chunk (chars "(a)")] finished).
  reflexivity.
Defined.

(** ** The character classes *)

(** X15. The classes of characters that the Init branch tells apart are
    pairwise disjoint, so that the order of its tests is immaterial; a
    letter is an identifier character; and no identifier character is
    whitespace, a double quote or a parenthesis, so that each of these
    ends an identifier. *)
Theorem character_classes_are_disjoint (c : char) :
  (isWhitespace c = true ->
   isAlpha c = false /\ c <> quote /\ c <> lparen /\ c <> rparen) /\
  (isAlpha c = true ->
   isIdChar c = true /\ c <> quote /\ c <> lparen /\ c <> rparen) /\
  (isIdChar c = true ->
   isWhitespace c = false /\ c <> quote /\ c <> lparen /\ c <> rparen).
Proof.
  unfold isWhitespace, isAlpha, isIdChar, between, quote, lparen, rparen.
  rewrite !orb_true_iff, !orb_false_iff, !andb_true_iff, !andb_false_iff,
    !N.leb_le, !N.leb_gt, !N.eqb_eq, !N.eqb_neq.
  lia.
Qed.
